(** * hjson-go encoder (encode.go): a shallow embedding and its properties

    Go strings are byte sequences, modelled by [string] (a list of 8-bit
    [ascii]); the regular expressions of [init] are matchers over the
    UTF-8 decoding of the text; the encoder object is a record threaded
    through the calls; [str] returns a three-way outcome (normal return,
    returned error, panic of the [reflect] package). *)

From Stdlib Require Import ZArith NArith String Ascii List Lia Bool.
From Stdlib Require Import Sorting.Sorted Sorting.Permutation.
From Stdlib Require Import Structures.OrderedTypeEx.
From Stdlib Require Import Floats.SpecFloat Numbers.DecimalString.
Import ListNotations.

Local Open Scope N_scope.
Local Open Scope list_scope.
Local Open Scope string_scope.

(** ** Bytes and Go strings *)

(** The double quote, the backslash and the control characters the source
    writes with escapes. *)
Definition DQ : ascii := "034"%char.
Definition BS : ascii := "092"%char.
Definition chr_b : ascii := "008"%char.
Definition chr_t : ascii := "009"%char.
Definition chr_n : ascii := "010"%char.
Definition chr_f : ascii := "012"%char.
Definition chr_r : ascii := "013"%char.

(** One-byte string. *)
Definition str1 (c : ascii) : string := String c EmptyString.

(** The two-byte text of an empty quoted string. *)
Definition emptyQuoted : string := String DQ (str1 DQ).

(** [len(s)] of Go: the number of bytes. *)
Definition len (s : string) : nat := String.length s.

(** [strings.Contains]: [sub] occurs in [s] (byte positions). *)
Fixpoint Contains (s sub : string) : bool :=
  prefix sub s ||
  match s with
  | EmptyString => false
  | String _ rest => Contains rest sub
  end.

(** Last byte of a string, if any. *)
Fixpoint lastByte (s : string) : option ascii :=
  match s with
  | EmptyString => None
  | String c EmptyString => Some c
  | String _ rest => lastByte rest
  end.

Fixpoint existsbS (p : ascii -> bool) (s : string) : bool :=
  match s with
  | EmptyString => false
  | String c rest => p c || existsbS p rest
  end.

Fixpoint concatS (l : list string) : string :=
  match l with
  | [] => EmptyString
  | x :: rest => x ++ concatS rest
  end.

(** ** Package unicode/utf8 *)

Module utf8.

Local Open Scope N_scope.

Definition rune := N.

Definition RuneError : rune := 0xFFFD.
Definition RuneSelf : N := 0x80.

Definition byteN (c : ascii) : N := N_of_ascii c.

(** Continuation byte range [locb..hicb]. *)
Definition isCont (b : N) : bool := (0x80 <=? b) && (b <=? 0xBF).

(** [utf8.DecodeRune]: the first rune of [p] and its width in bytes.  A
    byte below [RuneSelf] is itself; lead bytes C2..F4 announce 2 to 4
    bytes, the second of which is checked against the accept range of the
    lead byte; every malformed or truncated sequence yields
    [(RuneError, 1)]. *)
Definition DecodeRune (p : string) : rune * nat :=
  match p with
  | EmptyString => (RuneError, 0%nat)
  | String c0 p1 =>
    let p0 := byteN c0 in
    if p0 <? RuneSelf then (p0, 1%nat)
    else if (p0 <? 0xC2) || (0xF4 <? p0) then (RuneError, 1%nat)
    else
      let lo := if p0 =? 0xE0 then 0xA0 else if p0 =? 0xF0 then 0x90 else 0x80 in
      let hi := if p0 =? 0xED then 0x9F else if p0 =? 0xF4 then 0x8F else 0xBF in
      match p1 with
      | EmptyString => (RuneError, 1%nat)
      | String c1 p2 =>
        let b1 := byteN c1 in
        if (b1 <? lo) || (hi <? b1) then (RuneError, 1%nat)
        else if p0 <? 0xE0 then
          (N.lor (N.shiftl (N.land p0 0x1F) 6) (N.land b1 0x3F), 2%nat)
        else
          match p2 with
          | EmptyString => (RuneError, 1%nat)
          | String c2 p3 =>
            let b2 := byteN c2 in
            if negb (isCont b2) then (RuneError, 1%nat)
            else if p0 <? 0xF0 then
              (N.lor (N.shiftl (N.land p0 0x0F) 12)
                 (N.lor (N.shiftl (N.land b1 0x3F) 6) (N.land b2 0x3F)), 3%nat)
            else
              match p3 with
              | EmptyString => (RuneError, 1%nat)
              | String c3 _ =>
                let b3 := byteN c3 in
                if negb (isCont b3) then (RuneError, 1%nat)
                else
                  (N.lor (N.shiftl (N.land p0 0x07) 18)
                     (N.lor (N.shiftl (N.land b1 0x3F) 12)
                        (N.lor (N.shiftl (N.land b2 0x3F) 6) (N.land b3 0x3F))),
                   4%nat)
              end
          end
      end
  end.

(** The text read rune by rune, as the regexp engine steps through it:
    each rune with the bytes it was decoded from.  [skip] counts the
    bytes of the current rune still to pass over. *)
Fixpoint runesFrom (skip : nat) (s : string) : list (rune * string) :=
  match s with
  | EmptyString => []
  | String _ rest =>
    match skip with
    | S k => runesFrom k rest
    | O =>
      let (r, w) := DecodeRune s in
      (r, substring 0 w s) :: runesFrom (w - 1) rest
    end
  end.

Definition runes (s : string) : list (rune * string) := runesFrom 0 s.

End utf8.

(** ** Package regexp: the six patterns of [init]

    A character class is a list of inclusive rune ranges.  An unanchored
    one-rune class matches a text when some decoded rune is in the class.
    The patterns' literals and the class [\s] are ASCII; a byte below 0x80
    always decodes to itself and never lies inside a longer rune, so they
    are matched on the bytes. *)

Module regexp.

Local Open Scope N_scope.

Definition class := list (N * N).

Definition inClass (cl : class) (r : utf8.rune) : bool :=
  existsb (fun '(lo, hi) => (lo <=? r) && (r <=? hi)) cl.

(** [re.Match] for a pattern that is one class. *)
Definition MatchClass (cl : class) (s : string) : bool :=
  existsb (fun '(r, _) => inClass cl r) (utf8.runes s).

(** [re.ReplaceAllFunc] for a pattern that is one class: every rune of
    the class is replaced by [repl] of its bytes, the rest is copied. *)
Definition ReplaceAllFunc (cl : class) (src : string) (repl : string -> string) : string :=
  concatS (map (fun '(r, a) => if inClass cl r then repl a else a) (utf8.runes src)).

(** The Perl class [\s] of RE2: tab, newline, form feed, carriage return
    and space. *)
Definition isSpace (c : ascii) : bool :=
  let b := utf8.byteN c in
  (b =? 9) || (b =? 10) || (b =? 12) || (b =? 13) || (b =? 32).

End regexp.

(** ** The character classifier: the patterns compiled by [init] *)

(** The class shared by [needsEscape], [needsQuotes] and [needsEscapeML]:
    x7f-x9f, soft hyphen, 0600-0604, 070f, 17b4, 17b5, 200c-200f,
    2028-202f, 2060-206f, feff, fff0-ffff. *)
Definition unsafeUnicode : regexp.class :=
  [ (0x7f, 0x9f); (0xad, 0xad); (0x600, 0x604); (0x70f, 0x70f);
    (0x17b4, 0x17b4); (0x17b5, 0x17b5); (0x200c, 0x200f);
    (0x2028, 0x202f); (0x2060, 0x206f); (0xfeff, 0xfeff);
    (0xfff0, 0xffff) ].

(** needsEscape: backslash, double quote, x00-x1f and the shared class. *)
Definition needsEscapeClass : regexp.class :=
  (0x5c, 0x5c) :: (0x22, 0x22) :: (0x00, 0x1f) :: unsafeUnicode.

Definition needsEscape (s : string) : bool :=
  regexp.MatchClass needsEscapeClass s.

(** needsQuotes: like needsEscape but without backslash and double quote. *)
Definition needsQuotesClass : regexp.class :=
  (0x00, 0x1f) :: unsafeUnicode.

Definition needsQuotes (s : string) : bool :=
  regexp.MatchClass needsQuotesClass s.

(** The alternatives of needsQuotes2 that are anchored at the start and
    are literals: double quote, three single quotes, hash, slash-star,
    slash-slash, opening brace, opening bracket. *)
Definition quotes2Prefixes : list string :=
  [ str1 DQ; "'''"; "#"; "/*"; "//"; "{"; "[" ].

Definition startsWithSpace (s : string) : bool :=
  match s with
  | EmptyString => false
  | String c _ => regexp.isSpace c
  end.

Definition endsWithSpace (s : string) : bool :=
  match lastByte s with
  | None => false
  | Some c => regexp.isSpace c
  end.

(** needsQuotes2: [^\s], the seven anchored literals, or [\s$]. *)
Definition needsQuotes2 (s : string) : bool :=
  startsWithSpace s
  || existsb (fun p => prefix p s) quotes2Prefixes
  || endsWithSpace s.

(** needsEscapeML: three single quotes, or needsQuotes without newline
    (x0a) and carriage return (x0d). *)
Definition needsEscapeMLClass : regexp.class :=
  (0x00, 0x09) :: (0x0b, 0x0c) :: (0x0e, 0x1f) :: unsafeUnicode.

Definition needsEscapeML (s : string) : bool :=
  Contains s "'''" || regexp.MatchClass needsEscapeMLClass s.

(** startsWithKeyword: the whole text is true, false or null, then [\s*],
    then optionally one of comma, closing bracket, closing brace, hash,
    slash-slash, slash-star followed by [.*] (any runes but newline). *)
Definition keywords : list string := [ "true"; "false"; "null" ].

Definition keywordFollowers : list string := [ ","; "]"; "}"; "#"; "//"; "/*" ].

Fixpoint skipSpaces (s : string) : string :=
  match s with
  | EmptyString => EmptyString
  | String c rest => if regexp.isSpace c then skipSpaces rest else s
  end.

Definition noNewline (s : string) : bool :=
  negb (existsbS (fun c => Ascii.eqb c chr_n) s).

(** What may follow the keyword up to the end of the text. *)
Definition keywordTail (s : string) : bool :=
  match skipSpaces s with
  | EmptyString => true
  | t =>
    existsb
      (fun p => prefix p t && noNewline (substring (len p) (len t - len p) t))
      keywordFollowers
  end.

Definition startsWithKeyword (s : string) : bool :=
  existsb
    (fun kw => prefix kw s && keywordTail (substring (len kw) (len s - len kw) s))
    keywords.

(** needsEscapeName: one of comma, braces, brackets, [\s], colon, hash,
    double quote; or slash-slash, slash-star, three single quotes. *)
Definition nameChars : list ascii :=
  [ ","%char; "{"%char; "["%char; "}"%char; "]"%char; ":"%char; "#"%char; DQ ].

Definition isNameChar (c : ascii) : bool :=
  existsb (Ascii.eqb c) nameChars || regexp.isSpace c.

Definition needsEscapeName (s : string) : bool :=
  existsbS isNameChar s
  || Contains s "//" || Contains s "/*" || Contains s "'''".

(** ** The escaper *)

(** [meta]: the table of character substitutions; a missing key reads as
    the nil slice. *)
Definition meta (c : ascii) : option string :=
  if Ascii.eqb c chr_b then Some (String BS "b")
  else if Ascii.eqb c chr_t then Some (String BS "t")
  else if Ascii.eqb c chr_n then Some (String BS "n")
  else if Ascii.eqb c chr_f then Some (String BS "f")
  else if Ascii.eqb c chr_r then Some (String BS "r")
  else if Ascii.eqb c DQ then Some (String BS (str1 DQ))
  else if Ascii.eqb c BS then Some (String BS (str1 BS))
  else None.

Module fmt.

Local Open Scope N_scope.

Definition hexDigit (n : N) : ascii :=
  ascii_of_N (if n <? 10 then 48 + n else 87 + n).

(** Verb x on a byte slice: two lower-case hex digits per byte. *)
Fixpoint hexBytes (b : string) : string :=
  match b with
  | EmptyString => EmptyString
  | String c rest =>
    String (hexDigit (utf8.byteN c / 16))
      (String (hexDigit (utf8.byteN c mod 16)) (hexBytes rest))
  end.

Fixpoint zeros (n : nat) : string :=
  match n with
  | O => EmptyString
  | S k => String "0"%char (zeros k)
  end.

(** [fmt.Sprintf] with the format backslash, u, percent 04x, applied to a
    byte slice ([None] is the nil slice): the hex text of the bytes,
    padded on the left with zeros to width 4.  The nil slice has no
    bytes, so only the padding is written. *)
Definition Sprintf_u04x (c : option string) : string :=
  let digits := match c with None => EmptyString | Some b => hexBytes b end in
  String BS ("u" ++ zeros (4 - len digits) ++ digits)%string.

End fmt.

(** [a[0]]: the first byte of a matched slice (a match is never empty). *)
Definition firstByte (a : string) : ascii :=
  match a with
  | EmptyString => zero
  | String c _ => c
  end.

(** [quoteReplace]: every match [a] of needsEscape is replaced by
    [c := meta[a[0]]] when that is not nil, and otherwise by the text
    Sprintf formats from [c], the nil table entry. *)
Definition quoteReplace (text : string) : string :=
  regexp.ReplaceAllFunc needsEscapeClass text
    (fun a =>
       let c := meta (firstByte a) in
       match c with
       | Some t => t
       | None => fmt.Sprintf_u04x c
       end).

(** ** Packages strings, strconv and sort *)

Module strings.

(** [strings.Replace(s, old, empty, -1)] for a one-byte [old]: every
    occurrence of the byte is deleted. *)
Fixpoint RemoveByte (old : ascii) (s : string) : string :=
  match s with
  | EmptyString => EmptyString
  | String c rest =>
    if Ascii.eqb c old then RemoveByte old rest else String c (RemoveByte old rest)
  end.

(** [strings.Split(s, sep)] for a one-byte [sep]: the pieces between the
    separators; always at least one piece. *)
Fixpoint Split (sep : ascii) (s : string) : list string :=
  match s with
  | EmptyString => [EmptyString]
  | String c rest =>
    if Ascii.eqb c sep then EmptyString :: Split sep rest
    else
      match Split sep rest with
      | piece :: pieces => String c piece :: pieces
      | [] => [str1 c]
      end
  end.

Definition lowerByte (c : ascii) : ascii :=
  let n := nat_of_ascii c in
  if (65 <=? n)%nat && (n <=? 90)%nat then ascii_of_nat (n + 32) else c.

(** [strings.ToLower] on ASCII text. *)
Fixpoint ToLower (s : string) : string :=
  match s with
  | EmptyString => EmptyString
  | String c rest => String (lowerByte c) (ToLower rest)
  end.

End strings.

Module strconv.

(** [strconv.FormatInt(i, 10)]. *)
Definition FormatInt (i : Z) : string := NilZero.string_of_int (Z.to_int i).

End strconv.

(** [SortAlpha.Less]: byte-wise comparison of the key texts. *)
Definition Less (a b : string) : bool := String.ltb a b.

Fixpoint insertAlpha (k : string) (sorted : list string) : list string :=
  match sorted with
  | [] => [k]
  | x :: rest => if Less x k then x :: insertAlpha k rest else k :: x :: rest
  end.

(** [sort.Sort(SortAlpha(keys))]: the library sorts in place into
    ascending order of [Less]; modelled by insertion sort. *)
Fixpoint sortAlpha (keys : list string) : list string :=
  match keys with
  | [] => []
  | k :: rest => insertAlpha k (sortAlpha rest)
  end.

(** ** The data model *)

Record EncoderOptions := {
  Eol : string;
  BracesSameLine : bool;
  EmitRootBraces : bool;
  QuoteAlways : bool;
  IndentBy : string;
  AllowMinusZero : bool;
  UnknownAsNull : bool
}.

Definition DefaultOptions : EncoderOptions := {|
  Eol := str1 chr_n;
  BracesSameLine := false;
  EmitRootBraces := true;
  QuoteAlways := false;
  IndentBy := "  ";
  AllowMinusZero := false;
  UnknownAsNull := false
|}.

(** The encoder object: the output buffer, the embedded options and the
    indentation depth (a Go [int]). *)
Record hjsonEncoder := {
  Buffer : string;
  Options :> EncoderOptions;
  indent : Z
}.

(** Wrap-around of the 64-bit signed [int]. *)
Definition wrapInt (z : Z) : Z := ((z + 2 ^ 63) mod 2 ^ 64 - 2 ^ 63)%Z.

Definition WriteString (e : hjsonEncoder) (s : string) : hjsonEncoder :=
  {| Buffer := Buffer e ++ s; Options := Options e; indent := indent e |}.

Definition setIndent (e : hjsonEncoder) (i : Z) : hjsonEncoder :=
  {| Buffer := Buffer e; Options := Options e; indent := i |}.

#[local] Unset Elimination Schemes.

(** What [reflect] shows of a host value: the zero Value (of a nil
    interface passed to ValueOf), the kinds Interface and Ptr (nil or
    holding an element), the kinds the encoder handles, and any other
    kind.  A map is given by its entries in the order MapKeys exposes
    them; its keys are strings.  The induction principle, through the
    elements of slices and the entries of maps, is [Value_ind] below. *)
Inductive Value : Type :=
| VInvalid
| VNilInterface
| VNilPtr
| VInterface (elem : Value)
| VPtr (elem : Value)
| VString (s : string)
| VInt (i : Z)
| VUint (u : Z)
| VFloat (number : spec_float)
| VBool (b : bool)
| VSlice (elems : list Value)
| VMap (entries : list (string * Value))
| VOther.

#[local] Set Elimination Schemes.

(** [value.Kind()], as far as the encoder tells kinds apart: the signed
    and the unsigned integer kinds, the two float kinds, and Slice and
    Array are each one kind here; [KOther] is any kind the switch does
    not list. *)
Inductive Kind :=
| KInvalid | KInterface | KPtr | KString | KInt | KUint | KFloat | KBool
| KSlice | KMap | KOther.

Definition Value_Kind (value : Value) : Kind :=
  match value with
  | VInvalid => KInvalid
  | VNilInterface | VInterface _ => KInterface
  | VNilPtr | VPtr _ => KPtr
  | VString _ => KString
  | VInt _ => KInt
  | VUint _ => KUint
  | VFloat _ => KFloat
  | VBool _ => KBool
  | VSlice _ => KSlice
  | VMap _ => KMap
  | VOther => KOther
  end.

(** The error of [str]: errors.New of the text Unsupported type followed
    by the name of the type of the value; of the type, the model keeps
    the kind. *)
Inductive error := UnsupportedType (typ : Kind).

(** A panic of package reflect, its ValueError: the method called and
    the kind of the value it was called on. *)
Inductive panic := ValueError (method : string) (kind : Kind).

Inductive result (A : Type) : Type :=
| Ok (a : A)
| Err (err : error)
| Panic (p : panic).

Arguments Ok {A} a.
Arguments Err {A} err.
Arguments Panic {A} p.

Definition bind {A B : Type} (r : result A) (k : A -> result B) : result B :=
  match r with
  | Ok a => k a
  | Err err => Err err
  | Panic p => Panic p
  end.

Notation "x <- r ;; k" := (bind r (fun x => k))
  (at level 61, r at next level, right associativity).

(** [value.Int()]: panics unless the kind is one of the signed ones. *)
Definition Value_Int (value : Value) : result Z :=
  match value with
  | VInt i => Ok i
  | _ => Panic (ValueError "reflect.Value.Int" (Value_Kind value))
  end.

(** [value.Type()]: panics on the zero Value. *)
Definition Value_Type (value : Value) : result Kind :=
  match value with
  | VInvalid => Panic (ValueError "reflect.Value.Type" KInvalid)
  | _ => Ok (Value_Kind value)
  end.

Definition MapKeys {A : Type} (entries : list (string * A)) : list string :=
  map fst entries.

(** [value.MapIndex(key)]: the element stored under [key], if any. *)
Fixpoint MapIndex {A : Type} (entries : list (string * A)) (key : string) : option A :=
  match entries with
  | [] => None
  | (k, v) :: rest => if String.eqb k key then Some v else MapIndex rest key
  end.

(** ** The encoder *)

Section Encoder.

(** [startsWithNumber] belongs to the decoder and [strconv.FormatFloat]
    to the Go library; the encoder is parametric in the first and in the
    digits the second produces for a finite non-zero number (sign,
    mantissa, exponent, format byte). *)
Variable startsWithNumber : string -> bool.
Variable formatFinite : bool -> positive -> Z -> ascii -> string.

(** [strconv.FormatFloat(number, fmt, -1, 64)] for the formats f and E. *)
Definition FormatFloat (number : spec_float) (fmt : ascii) : string :=
  match number with
  | S754_zero s =>
    (if s then "-" else EmptyString)
      ++ (if Ascii.eqb fmt "f"%char then "0" else "0E+00")
  | S754_infinity s => if s then "-Inf" else "+Inf"
  | S754_nan => "NaN"
  | S754_finite s m ex => formatFinite s m ex fmt
  end.

Definition IsInf (number : spec_float) : bool :=
  match number with S754_infinity _ => true | _ => false end.

Definition IsNaN (number : spec_float) : bool :=
  match number with S754_nan => true | _ => false end.

(** [number == -0]: the constant is the integer zero, and both float
    zeros are equal to it. *)
Definition eqZero (number : spec_float) : bool :=
  match number with S754_zero _ => true | _ => false end.

Fixpoint repeatWrite (n : nat) (s : string) (e : hjsonEncoder) : hjsonEncoder :=
  match n with
  | O => e
  | S k => repeatWrite k s (WriteString e s)
  end.

Definition writeIndent (e : hjsonEncoder) (indent : Z) : hjsonEncoder :=
  repeatWrite (Z.to_nat indent) (IndentBy e) (WriteString e (Eol e)).

(** The loop of [mlString] over the lines. *)
Definition mlLines (a : list string) (e : hjsonEncoder) : hjsonEncoder :=
  fold_left
    (fun e v =>
       let indent := if (len v =? 0)%nat then 0%Z else wrapInt (indent e + 1) in
       let e := writeIndent e indent in
       WriteString e v)
    a e.

Definition mlString (e : hjsonEncoder) (value separator : string) : hjsonEncoder :=
  let a := strings.Split chr_n (strings.RemoveByte chr_r value) in
  let e :=
    match a with
    | [line] =>
      let e := WriteString e (separator ++ "'''") in
      WriteString e line
    | _ =>
      let e := writeIndent e (wrapInt (indent e + 1)) in
      let e := WriteString e "'''" in
      let e := mlLines a e in
      writeIndent e (wrapInt (indent e + 1))
    end in
  WriteString e "'''".

Definition quote (e : hjsonEncoder) (value separator : string) (isRootObject : bool)
  : hjsonEncoder :=
  if (len value =? 0)%nat then
    WriteString e (separator ++ emptyQuoted)
  else if QuoteAlways e
          || needsQuotes value || needsQuotes2 value
          || startsWithNumber value
          || startsWithKeyword value then
    if negb (needsEscape value) then
      WriteString e (separator ++ str1 DQ ++ value ++ str1 DQ)
    else if negb (needsEscapeML value) && negb isRootObject then
      mlString e value separator
    else
      WriteString e (separator ++ str1 DQ ++ quoteReplace value ++ str1 DQ)
  else
    WriteString e (separator ++ value).

Definition quoteName (name : string) : string :=
  if (len name =? 0)%nat then emptyQuoted
  else if needsEscapeName name then
    let name := if needsEscape name then quoteReplace name else name in
    str1 DQ ++ name ++ str1 DQ
  else name.

(** A recursive call of [str] on a given value, still waiting for
    noIndent, separator, isRootObject and the encoder. *)
Definition encoderFn : Type := bool -> string -> bool -> hjsonEncoder -> result hjsonEncoder.

(** The default case of the switch. *)
Definition strDefault (value : Value) : encoderFn :=
  fun _ _ _ e =>
    if UnknownAsNull e then Ok (WriteString e "null")
    else
      typ <- Value_Type value ;;
      Err (UnsupportedType typ).

(** The loop over the elements of a slice. *)
Fixpoint strElems (elems : list encoderFn) (e : hjsonEncoder) : result hjsonEncoder :=
  match elems with
  | [] => Ok e
  | elem :: rest =>
    let e := writeIndent e (indent e) in
    e <- elem true EmptyString false e ;;
    strElems rest e
  end.

(** The loop over the sorted keys of a map; MapIndex of a key that is
    absent is the zero Value. *)
Fixpoint strMembers (members : list (string * encoderFn)) (keys : list string)
  (e : hjsonEncoder) : result hjsonEncoder :=
  match keys with
  | [] => Ok e
  | key :: rest =>
    let e := writeIndent e (indent e) in
    let e := WriteString e (quoteName key) in
    let e := WriteString e ":" in
    let member :=
      match MapIndex members key with
      | Some m => m
      | None => strDefault VInvalid
      end in
    e <- member false " " false e ;;
    strMembers members rest e
  end.

(** The switch of [str] on the kind of [value]; [str] is the function
    itself, for the elements of a container. *)
Definition strKind (str : Value -> encoderFn) (value : Value) : encoderFn :=
  fun noIndent separator isRootObject e =>
    match value with
    | VString s => Ok (quote e s separator isRootObject)

    | VInt _ | VUint _ =>
      let e := WriteString e separator in
      i <- Value_Int value ;;
      Ok (WriteString e (strconv.FormatInt i))

    | VFloat number =>
      let e := WriteString e separator in
      if IsInf number || IsNaN number then
        Ok (WriteString e "null")
      else if negb (AllowMinusZero e) && eqZero number then
        Ok (WriteString e "0")
      else
        let val := FormatFloat number "f"%char in
        let exp := FormatFloat number "E"%char in
        let val := if (len exp <? len val)%nat then strings.ToLower exp else val in
        Ok (WriteString e val)

    | VBool b =>
      let e := WriteString e separator in
      if b then Ok (WriteString e "true") else Ok (WriteString e "false")

    | VSlice elems =>
      if (List.length elems =? 0)%nat then
        let e := WriteString e separator in
        Ok (WriteString e "[]")
      else
        let indent1 := indent e in
        let e := setIndent e (wrapInt (indent e + 1)) in
        let e :=
          if negb noIndent && negb (BracesSameLine e) then writeIndent e indent1
          else WriteString e separator in
        let e := WriteString e "[" in
        e <- strElems (map str elems) e ;;
        let e := writeIndent e indent1 in
        let e := WriteString e "]" in
        Ok (setIndent e indent1)

    | VMap entries =>
      if (List.length entries =? 0)%nat then
        let e := WriteString e separator in
        Ok (WriteString e "{}")
      else
        let showBraces := negb isRootObject || EmitRootBraces e in
        let indent1 := indent e in
        let e := setIndent e (wrapInt (indent e + 1)) in
        let e :=
          if showBraces then
            let e :=
              if negb noIndent && negb (BracesSameLine e) then writeIndent e indent1
              else WriteString e separator in
            WriteString e "{"
          else e in
        let keys := sortAlpha (MapKeys entries) in
        e <- strMembers (map (fun kv => (fst kv, str (snd kv))) entries) keys e ;;
        let e :=
          if showBraces then
            let e := writeIndent e indent1 in
            WriteString e "}"
          else e in
        Ok (setIndent e indent1)

    | _ => strDefault value noIndent separator isRootObject e
    end.

(** [str]: a nil interface or pointer is written as null; any other
    interface or pointer is replaced by its element, once; then the
    switch on the kind. *)
Fixpoint str (value : Value) : encoderFn :=
  match value with
  | VNilInterface | VNilPtr =>
    fun _ separator _ e =>
      let e := WriteString e separator in
      Ok (WriteString e "null")
  | VInterface elem | VPtr elem => strKind str elem
  | _ => strKind str value
  end.

(** [MarshalWithOptions]: a fresh encoder (all fields zero) receives five
    fields of [options]; the result is the buffer, or the error. *)
Definition MarshalWithOptions (v : Value) (options : EncoderOptions) : result string :=
  let e := {| Buffer := EmptyString;
              Options := {| Eol := Eol options;
                            BracesSameLine := BracesSameLine options;
                            EmitRootBraces := EmitRootBraces options;
                            QuoteAlways := QuoteAlways options;
                            IndentBy := IndentBy options;
                            AllowMinusZero := false;
                            UnknownAsNull := false |};
              indent := 0%Z |} in
  e <- str v true EmptyString true e ;;
  Ok (Buffer e).

Definition Marshal (v : Value) : result string :=
  MarshalWithOptions v DefaultOptions.

End Encoder.

(** ** Notions used by the statements *)

(** Induction over values, through the elements of slices and the
    entries of maps. *)
Section ValueInduction.

Variable P : Value -> Prop.
Hypothesis HInvalid : P VInvalid.
Hypothesis HNilInterface : P VNilInterface.
Hypothesis HNilPtr : P VNilPtr.
Hypothesis HInterface : forall elem, P elem -> P (VInterface elem).
Hypothesis HPtr : forall elem, P elem -> P (VPtr elem).
Hypothesis HString : forall s, P (VString s).
Hypothesis HInt : forall i, P (VInt i).
Hypothesis HUint : forall u, P (VUint u).
Hypothesis HFloat : forall number, P (VFloat number).
Hypothesis HBool : forall b, P (VBool b).
Hypothesis HSlice : forall elems, Forall P elems -> P (VSlice elems).
Hypothesis HMap :
  forall entries, Forall (fun kv => P (snd kv)) entries -> P (VMap entries).
Hypothesis HOther : P VOther.

Fixpoint Value_ind (value : Value) : P value :=
  match value with
  | VInvalid => HInvalid
  | VNilInterface => HNilInterface
  | VNilPtr => HNilPtr
  | VInterface elem => HInterface elem (Value_ind elem)
  | VPtr elem => HPtr elem (Value_ind elem)
  | VString s => HString s
  | VInt i => HInt i
  | VUint u => HUint u
  | VFloat number => HFloat number
  | VBool b => HBool b
  | VSlice elems =>
    HSlice elems
      ((fix all (l : list Value) : Forall P l :=
          match l with
          | [] => Forall_nil P
          | v :: rest => Forall_cons v (Value_ind v) (all rest)
          end) elems)
  | VMap entries =>
    HMap entries
      ((fix all (l : list (string * Value)) : Forall (fun kv => P (snd kv)) l :=
          match l with
          | [] => Forall_nil _
          | kv :: rest => Forall_cons kv (Value_ind (snd kv)) (all rest)
          end) entries)
  | VOther => HOther
  end.

End ValueInduction.

(** The encoder [MarshalWithOptions] starts from. *)
Definition newEncoder (options : EncoderOptions) : hjsonEncoder :=
  {| Buffer := EmptyString; Options := options; indent := 0%Z |}.

(** The encoder [e] with an empty buffer, and with [p] put before its
    buffer. *)
Definition blank (e : hjsonEncoder) : hjsonEncoder :=
  {| Buffer := EmptyString; Options := Options e; indent := indent e |}.

Definition prepend (p : string) (e : hjsonEncoder) : hjsonEncoder :=
  {| Buffer := p ++ Buffer e; Options := Options e; indent := indent e |}.

Definition onOk {A B : Type} (f : A -> B) (r : result A) : result B :=
  match r with
  | Ok a => Ok (f a)
  | Err err => Err err
  | Panic p => Panic p
  end.

(** An encoding step whose output does not depend on what the buffer
    already holds. *)
Definition framed (f : encoderFn) : Prop :=
  forall noIndent separator root e p,
    f noIndent separator root (prepend p e)
    = onOk (prepend p) (f noIndent separator root e).

(** An encoding step that leaves the options and the depth as they were. *)
Definition steady (f : encoderFn) : Prop :=
  forall noIndent separator root e e',
    f noIndent separator root e = Ok e' ->
    Options e' = Options e /\ indent e' = indent e.

Definition regular (f : encoderFn) : Prop := framed f /\ steady f.

(** What [strKind] needs of the recursive calls on the elements. *)
Definition regularOn (rec : Value -> encoderFn) (value : Value) : Prop :=
  match value with
  | VSlice elems => Forall (fun v => regular (rec v)) elems
  | VMap entries => Forall (fun kv => regular (rec (snd kv))) entries
  | _ => True
  end.

(** The member the loop of [strMembers] encodes under [key]. *)
Definition memberOf (members : list (string * encoderFn)) (key : string) : encoderFn :=
  match MapIndex members key with
  | Some member => member
  | None => strDefault VInvalid
  end.

(** Two encoding steps that agree on every call. *)
Definition agree (f g : encoderFn) : Prop :=
  forall noIndent separator root e,
    f noIndent separator root e = g noIndent separator root e.

(** The text an encoding step writes when it starts from an empty buffer
    with the given options and depth. *)
Definition textOf (f : encoderFn) (noIndent : bool) (separator : string) (root : bool)
  (options : EncoderOptions) (depth : Z) : result string :=
  onOk Buffer
    (f noIndent separator root
       {| Buffer := EmptyString; Options := options; indent := depth |}).

Definition isContainer (value : Value) : bool :=
  match value with
  | VSlice _ | VMap _ => true
  | _ => false
  end.

(** The value has a node that reaches the default case of the switch: a
    kind the switch does not list, the zero Value, or an interface or
    pointer met after the one dereference of [str]. *)
Definition unsupportedKind (rec : Value -> bool) (value : Value) : bool :=
  match value with
  | VString _ | VInt _ | VUint _ | VFloat _ | VBool _ => false
  | VSlice elems => existsb rec elems
  | VMap entries => existsb (fun kv => rec (snd kv)) entries
  | _ => true
  end.

Fixpoint unsupported (value : Value) : bool :=
  match value with
  | VNilInterface | VNilPtr => false
  | VInterface elem | VPtr elem => unsupportedKind unsupported elem
  | _ => unsupportedKind unsupported value
  end.

(** The values every case of [str] encodes: a pointer or interface that
    is nil where [str] receives it; or, directly or behind exactly one
    interface or pointer that is not nil, a string, a signed integer, a
    float, a boolean, or a slice or map whose elements are again
    encodable.  Behind the one dereference a nil pointer, a further
    pointer or an interface is not encodable, nor is the zero Value. *)
Definition encodableKind (rec : Value -> bool) (value : Value) : bool :=
  match value with
  | VString _ | VInt _ | VFloat _ | VBool _ => true
  | VSlice elems => forallb rec elems
  | VMap entries => forallb (fun kv => rec (snd kv)) entries
  | _ => false
  end.

Fixpoint encodable (value : Value) : bool :=
  match value with
  | VNilInterface | VNilPtr => true
  | VInterface elem | VPtr elem => encodableKind encodable elem
  | _ => encodableKind encodable value
  end.

(** The value has a node of an unsigned integer kind, or a zero Value,
    where [str] looks at it. *)
Definition panicKind (rec : Value -> bool) (value : Value) : bool :=
  match value with
  | VUint _ | VInvalid => true
  | VSlice elems => existsb rec elems
  | VMap entries => existsb (fun kv => rec (snd kv)) entries
  | _ => false
  end.

Fixpoint panicNode (value : Value) : bool :=
  match value with
  | VNilInterface | VNilPtr => false
  | VInterface elem | VPtr elem => panicKind panicNode elem
  | _ => panicKind panicNode value
  end.

(** Modelled from the spec: [startsWithNumber] is not part of encode.go.
    The spec's numeric-literal collision is that the text, read from its
    start, parses as a JSON-style number; since the fraction and the
    exponent of a JSON number are optional, some prefix of the text is a
    number exactly when the text starts with a digit, or with a minus
    sign and a digit.  Used to instantiate the encoder in examples. *)
Definition isDigit (c : ascii) : bool :=
  (48 <=? nat_of_ascii c)%nat && (nat_of_ascii c <=? 57)%nat.

Definition startsWithNumberSpec (s : string) : bool :=
  match s with
  | String c rest =>
    if Ascii.eqb c "-"%char then
      match rest with
      | String d _ => isDigit d
      | EmptyString => false
      end
    else isDigit c
  | EmptyString => false
  end.

(** A formatter of finite floats for examples that encode none. *)
Definition noFiniteFloats : bool -> positive -> Z -> ascii -> string :=
  fun _ _ _ _ => EmptyString.

(** The bytes of U+00AD (soft hyphen) and U+200C in UTF-8. *)
Definition softHyphen : string := String "194"%char (str1 "173"%char).
Definition zwnj : string := String "226"%char (String "128"%char (str1 "140"%char)).

(** *** The words of the specification about strings *)

(** [sub] occurs in [s]. *)
Definition hasSubstring (s sub : string) : Prop :=
  exists pre post, s = pre ++ sub ++ post.

Definition hasPrefix (p s : string) : Prop := exists t, s = p ++ t.

Definition leadingSpace (s : string) : Prop :=
  exists c t, s = String c t /\ regexp.isSpace c = true.

Definition trailingSpace (s : string) : Prop :=
  exists t c, s = t ++ str1 c /\ regexp.isSpace c = true.

Fixpoint allSpaces (s : string) : bool :=
  match s with
  | EmptyString => true
  | String c rest => regexp.isSpace c && allSpaces rest
  end.

(** Keyword collision: a keyword, then only whitespace, then the end of
    the text or one of the followers and anything up to the end that has
    no newline. *)
Definition keywordShaped (s : string) : Prop :=
  exists kw ws tail,
    s = kw ++ ws ++ tail
    /\ In kw keywords
    /\ allSpaces ws = true
    /\ (tail = EmptyString
        \/ exists p rest,
             tail = p ++ rest /\ In p keywordFollowers /\ noNewline rest = true).

(** Modelled from the spec: the Name-escape-worthy set as the
    specification words it: one of comma, opening or closing brace,
    opening or closing bracket, colon, hash, or whitespace; or one of the
    sequences slash-slash, slash-star, three single quotes. *)
Definition specNameChars : list ascii :=
  [ ","%char; "{"%char; "["%char; "}"%char; "]"%char; ":"%char; "#"%char ].

Definition nameEscapeWorthy (k : string) : bool :=
  existsbS (fun c => existsb (Ascii.eqb c) specNameChars || regexp.isSpace c) k
  || Contains k "//" || Contains k "/*" || Contains k "'''".

Definition hasDoubleQuote (k : string) : bool :=
  existsbS (fun c => Ascii.eqb c DQ) k.

(** *** The order of keys and the presentations of one value *)

(** [a] is not after [b], and [a] is before [b], in the byte-wise order
    of [Less]. *)
Definition leAlpha (a b : string) : Prop := Less b a = false.

Definition ltAlpha (a b : string) : Prop := Less a b = true.

#[local] Unset Elimination Schemes.

(** Two presentations of one host value: the same value, except that the
    entries of a mapping (whose keys are distinct), at any depth, may be
    exposed in another order. *)
Inductive sameValue : Value -> Value -> Prop :=
| same_refl : forall value, sameValue value value
| same_interface : forall a b, sameValue a b -> sameValue (VInterface a) (VInterface b)
| same_ptr : forall a b, sameValue a b -> sameValue (VPtr a) (VPtr b)
| same_slice : forall elems elems',
    Forall2 sameValue elems elems' -> sameValue (VSlice elems) (VSlice elems')
| same_map : forall entries reordered entries',
    NoDup (MapKeys entries) ->
    Permutation entries reordered ->
    Forall2 (fun kv kv' => fst kv = fst kv' /\ sameValue (snd kv) (snd kv'))
      reordered entries' ->
    sameValue (VMap entries) (VMap entries').

#[local] Set Elimination Schemes.

(** The text [writeIndent] writes: the line ending and the indentation
    unit once per level. *)
Fixpoint repeatText (n : nat) (s : string) : string :=
  match n with
  | O => EmptyString
  | S k => s ++ repeatText k s
  end.

Definition indentText (options : EncoderOptions) (depth : Z) : string :=
  Eol options ++ repeatText (Z.to_nat depth) (IndentBy options).

(** One member of a mapping as it is written at depth [depth]: a new
    indented line, the quoted or bare key, a colon and the text of the
    value. *)
Definition memberLine (options : EncoderOptions) (depth : Z) (kt : string * string)
  : string :=
  indentText options depth ++ quoteName (fst kt) ++ ":" ++ snd kt.

(** [text] is what [str] writes, at depth [depth] and after the single
    space that follows the colon, for the value stored under [key]. *)
Definition memberText swn ff (entries : list (string * Value))
  (options : EncoderOptions) (depth : Z) (key text : string) : Prop :=
  exists v,
    MapIndex entries key = Some v
    /\ textOf (str swn ff v) false " " false options depth = Ok text.

(** What is written before the first and after the last member of a
    non-empty mapping encoded from the encoder [e]. *)
Definition mapOpening (e : hjsonEncoder) (noIndent : bool) (separator : string)
  (root : bool) : string :=
  if negb root || EmitRootBraces e then
    (if negb noIndent && negb (BracesSameLine e) then indentText e (indent e)
     else separator) ++ "{"
  else EmptyString.

Definition mapClosing (e : hjsonEncoder) (root : bool) : string :=
  if negb root || EmitRootBraces e then indentText e (indent e) ++ "}"
  else EmptyString.

(** What is written before the first and after the last element of a
    non-empty slice encoded from the encoder [e], and one element as it
    is written at depth [depth]: a new indented line and the text of the
    element. *)
Definition sliceOpening (e : hjsonEncoder) (noIndent : bool) (separator : string)
  : string :=
  (if negb noIndent && negb (BracesSameLine e) then indentText e (indent e)
   else separator) ++ "[".

Definition sliceClosing (e : hjsonEncoder) : string :=
  indentText e (indent e) ++ "]".

Definition elemLine (options : EncoderOptions) (depth : Z) (text : string) : string :=
  indentText options depth ++ text.

(** *** Bytes, runes and the body of a JSON string *)

Fixpoint forallbS (p : ascii -> bool) (s : string) : bool :=
  match s with
  | EmptyString => true
  | String c rest => p c && forallbS p rest
  end.

(** The bytes of [s] after the first [n]. *)
Fixpoint dropS (n : nat) (s : string) : string :=
  match n, s with
  | O, _ => s
  | S k, String _ rest => dropS k rest
  | S _, EmptyString => EmptyString
  end.

Definition isASCII (c : ascii) : bool := (utf8.byteN c <? utf8.RuneSelf)%N.

Definition isHigh (c : ascii) : bool := (utf8.RuneSelf <=? utf8.byteN c)%N.

(** An ASCII control byte: below the space, or DEL. *)
Definition isControl (c : ascii) : bool :=
  ((utf8.byteN c <? 0x20) || (utf8.byteN c =? 0x7f))%N.

(** The body of a JSON string, read byte by byte: outside an escape a
    byte is anything but the double quote, the backslash and the bytes
    below the space; a backslash is followed by one of the double quote,
    the backslash, the slash, b, f, n, r, t, or by u and four hex
    digits. *)
Inductive scanState := Plain | Escape | Hex (more : nat).

Definition isHexDigit (c : ascii) : bool :=
  let b := utf8.byteN c in
  ((48 <=? b) && (b <=? 57) || (97 <=? b) && (b <=? 102)
   || (65 <=? b) && (b <=? 70))%N.

Definition scanByte (st : scanState) (c : ascii) : option scanState :=
  let b := utf8.byteN c in
  match st with
  | Plain =>
    if (b =? 0x5c)%N then Some Escape
    else if ((b =? 0x22) || (b <? 0x20))%N then None
    else Some Plain
  | Escape =>
    if existsb (N.eqb b) [0x22; 0x5c; 0x2f; 0x62; 0x66; 0x6e; 0x72; 0x74]%N
    then Some Plain
    else if (b =? 0x75)%N then Some (Hex 3)
    else None
  | Hex more =>
    if isHexDigit c then
      Some (match more with O => Plain | S k => Hex k end)
    else None
  end.

Fixpoint scan (st : scanState) (s : string) : option scanState :=
  match s with
  | EmptyString => Some st
  | String c rest =>
    match scanByte st c with
    | Some st' => scan st' rest
    | None => None
    end
  end.

Definition wellEscaped (s : string) : bool :=
  match scan Plain s with
  | Some Plain => true
  | _ => false
  end.

(** The byte slice of a rune: one ASCII byte, which is the rune, or
    bytes that are all 0x80 or above. *)
Definition tokenShape (ra : utf8.rune * string) : Prop :=
  (exists c, ra = (utf8.byteN c, str1 c) /\ isASCII c = true)
  \/ forallbS isHigh (snd ra) = true.

(** *** Maps with distinct keys *)

(** The keys are pairwise different, as the keys of a Go map are. *)
Fixpoint distinctb (keys : list string) : bool :=
  match keys with
  | [] => true
  | key :: rest => negb (existsb (String.eqb key) rest) && distinctb rest
  end.

(** Every map of the value, at any depth [str] looks at, has distinct
    keys. *)
Definition wellKeyedKind (rec : Value -> bool) (value : Value) : bool :=
  match value with
  | VSlice elems => forallb rec elems
  | VMap entries =>
    distinctb (MapKeys entries) && forallb (fun kv => rec (snd kv)) entries
  | _ => true
  end.

Fixpoint wellKeyed (value : Value) : bool :=
  match value with
  | VInterface elem | VPtr elem => wellKeyedKind wellKeyed elem
  | _ => wellKeyedKind wellKeyed value
  end.

(** * Properties *)

(** ** Examples from the specification *)

Example encode_mapping_example :
  Marshal startsWithNumberSpec noFiniteFloats
    (VMap [("b", VString "hello world"); ("a", VInt 1)])
  = Ok ("{" ++ str1 chr_n ++ "  a: 1" ++ str1 chr_n ++ "  b: hello world"
            ++ str1 chr_n ++ "}").
Proof. vm_compute. reflexivity. Qed.

Example encode_multiline_member :
  Marshal startsWithNumberSpec noFiniteFloats
    (VMap [("k", VString ("line1" ++ str1 chr_n ++ "line2"))])
  = Ok ("{" ++ str1 chr_n ++ "  k:" ++ str1 chr_n
            ++ "    '''" ++ str1 chr_n
            ++ "    line1" ++ str1 chr_n
            ++ "    line2" ++ str1 chr_n
            ++ "    '''" ++ str1 chr_n ++ "}").
Proof. vm_compute. reflexivity. Qed.

Example encode_keyword_string :
  Marshal startsWithNumberSpec noFiniteFloats (VString "true")
  = Ok (str1 DQ ++ "true" ++ str1 DQ).
Proof. vm_compute. reflexivity. Qed.

(** ** Facts about byte strings *)

Lemma append_assoc (a b c : string) : (a ++ b) ++ c = a ++ (b ++ c).
Proof. induction a as [|x a IH]; simpl; [reflexivity | now rewrite IH]. Qed.

Lemma append_empty_r (a : string) : a ++ EmptyString = a.
Proof. induction a as [|x a IH]; simpl; [reflexivity | now rewrite IH]. Qed.

Lemma substring_whole (s : string) : substring 0 (String.length s) s = s.
Proof. induction s as [|c s IH]; simpl; [reflexivity | now rewrite IH]. Qed.

Lemma prefix_split (p s : string) :
  prefix p s = true -> s = p ++ substring (len p) (len s - len p) s.
Proof.
  unfold len. revert s; induction p as [|a p IH]; intros s H.
  - simpl. now rewrite Nat.sub_0_r, substring_whole.
  - destruct s as [|b s]; simpl in H; [discriminate|].
    destruct (ascii_dec a b) as [<-|]; [|discriminate].
    simpl. f_equal. now apply IH.
Qed.

Lemma prefix_append (p t : string) : prefix p (p ++ t) = true.
Proof.
  induction p as [|a p IH]; simpl; [now destruct t|].
  destruct (ascii_dec a a); [exact IH | contradiction].
Qed.

Lemma Contains_prefix (s sub : string) :
  prefix sub s = true -> Contains s sub = true.
Proof. intros H. destruct s; cbn [Contains]; rewrite H; reflexivity. Qed.

Lemma Contains_complete (s sub : string) :
  hasSubstring s sub -> Contains s sub = true.
Proof.
  intros (pre & post & ->).
  induction pre as [|c pre IH]; simpl.
  - apply Contains_prefix, prefix_append.
  - rewrite IH. apply orb_true_r.
Qed.

Lemma Contains_sound (s sub : string) :
  Contains s sub = true -> hasSubstring s sub.
Proof.
  induction s as [|c s IH]; cbn [Contains]; intros H.
  - rewrite orb_false_r in H. apply prefix_split in H.
    exists EmptyString. eexists. exact H.
  - apply orb_true_iff in H as [H|H].
    + apply prefix_split in H. exists EmptyString. eexists. exact H.
    + destruct (IH H) as (pre & post & ->).
      exists (String c pre), post. reflexivity.
Qed.

Lemma lastByte_sound (s : string) (c : ascii) :
  lastByte s = Some c -> exists t, s = t ++ str1 c.
Proof.
  induction s as [|a s IH]; simpl; [discriminate|].
  destruct s as [|b s].
  - intros [= ->]. exists EmptyString. reflexivity.
  - intros H. destruct (IH H) as (t & ->).
    exists (String a t). reflexivity.
Qed.

Lemma lastByte_complete (t : string) (c : ascii) :
  lastByte (t ++ str1 c) = Some c.
Proof.
  induction t as [|a t IH]; simpl; [reflexivity|].
  rewrite IH. destruct (t ++ str1 c) eqn:E; [|reflexivity].
  destruct t; discriminate.
Qed.

Lemma existsbS_or (p q : ascii -> bool) (s : string) :
  existsbS (fun c => p c || q c) s = existsbS p s || existsbS q s.
Proof.
  induction s as [|c s IH]; simpl; [reflexivity|].
  rewrite IH. destruct (p c), (q c), (existsbS p s); reflexivity.
Qed.

(** ** The patterns against the words of the specification *)

Lemma needsQuotes2_sound (s : string) :
  needsQuotes2 s = true ->
  leadingSpace s \/ trailingSpace s
  \/ exists p, In p quotes2Prefixes /\ hasPrefix p s.
Proof.
  unfold needsQuotes2. intros H.
  apply orb_true_iff in H as [H|H]; [apply orb_true_iff in H as [H|H]|].
  - left. destruct s as [|c t]; [discriminate|]. now exists c, t.
  - right; right. apply existsb_exists in H as (p & Hin & Hp).
    exists p. split; [exact Hin|]. eexists. now apply prefix_split.
  - right; left. unfold endsWithSpace in H.
    destruct (lastByte s) as [c|] eqn:E; [|discriminate].
    destruct (lastByte_sound _ _ E) as (t & ->). now exists t, c.
Qed.

Lemma skipSpaces_split (s : string) :
  exists ws, s = ws ++ skipSpaces s /\ allSpaces ws = true.
Proof.
  induction s as [|c s (ws & IH & Hws)]; simpl.
  - now exists EmptyString.
  - destruct (regexp.isSpace c) eqn:E.
    + exists (String c ws). simpl. rewrite E, Hws. split; [now f_equal | reflexivity].
    + now exists EmptyString.
Qed.

Lemma keywordTail_sound (s : string) :
  keywordTail s = true ->
  exists ws tail,
    s = ws ++ tail /\ allSpaces ws = true
    /\ (tail = EmptyString
        \/ exists p rest,
             tail = p ++ rest /\ In p keywordFollowers /\ noNewline rest = true).
Proof.
  unfold keywordTail. intros H.
  destruct (skipSpaces_split s) as (ws & Hs & Hws).
  exists ws, (skipSpaces s). split; [exact Hs|]. split; [exact Hws|].
  destruct (skipSpaces s) as [|c t]; [now left|]. right.
  apply existsb_exists in H as (p & Hin & Hp).
  apply andb_true_iff in Hp as [Hp Hnl].
  exists p. eexists. split; [now apply prefix_split|]. now split.
Qed.

Lemma startsWithKeyword_sound (s : string) :
  startsWithKeyword s = true -> keywordShaped s.
Proof.
  unfold startsWithKeyword. intros H.
  apply existsb_exists in H as (kw & Hin & H).
  apply andb_true_iff in H as [Hp Ht].
  apply keywordTail_sound in Ht as (ws & tail & Hrest & Hws & Htail).
  exists kw, ws, tail. split; [|now repeat split].
  rewrite <- Hrest. now apply prefix_split.
Qed.

Lemma substring_append (p t : string) :
  substring (len p) (len (p ++ t) - len p) (p ++ t) = t.
Proof.
  unfold len. induction p as [|a p IH]; simpl.
  - now rewrite Nat.sub_0_r, substring_whole.
  - exact IH.
Qed.

Lemma needsQuotes2_complete (s : string) :
  leadingSpace s \/ trailingSpace s
  \/ (exists p, In p quotes2Prefixes /\ hasPrefix p s) ->
  needsQuotes2 s = true.
Proof.
  unfold needsQuotes2.
  intros [(c & t & -> & Hc)|[(t & c & -> & Hc)|(p & Hin & (t & ->))]].
  - simpl. now rewrite Hc.
  - unfold endsWithSpace. rewrite lastByte_complete, Hc. apply orb_true_r.
  - assert (E : existsb (fun q => prefix q (p ++ t)) quotes2Prefixes = true).
    { apply existsb_exists. exists p. split; [exact Hin | apply prefix_append]. }
    rewrite E. now rewrite orb_true_r.
Qed.

Lemma skipSpaces_append (ws t : string) :
  allSpaces ws = true -> skipSpaces (ws ++ t) = skipSpaces t.
Proof.
  induction ws as [|c ws IH]; simpl; [reflexivity|].
  intros H. apply andb_true_iff in H as [Hc Hws]. rewrite Hc. now apply IH.
Qed.

Lemma keywordTail_complete (ws tail : string) :
  allSpaces ws = true ->
  (tail = EmptyString
   \/ exists p rest,
        tail = p ++ rest /\ In p keywordFollowers /\ noNewline rest = true) ->
  keywordTail (ws ++ tail) = true.
Proof.
  intros Hws Htail. unfold keywordTail. rewrite (skipSpaces_append _ _ Hws).
  destruct Htail as [->|(p & rest & -> & Hin & Hnl)]; [reflexivity|].
  assert (E : existsb
                (fun q => prefix q (p ++ rest)
                          && noNewline (substring (len q) (len (p ++ rest) - len q)
                                          (p ++ rest)))
                keywordFollowers = true).
  { apply existsb_exists. exists p. split; [exact Hin|].
    now rewrite prefix_append, substring_append, Hnl. }
  simpl in Hin.
  repeat (destruct Hin as [<-|Hin]; [exact E|]). contradiction.
Qed.

Lemma startsWithKeyword_complete (s : string) :
  keywordShaped s -> startsWithKeyword s = true.
Proof.
  intros (kw & ws & tail & -> & Hin & Hws & Htail).
  unfold startsWithKeyword. apply existsb_exists.
  exists kw. split; [exact Hin|].
  now rewrite prefix_append, substring_append, keywordTail_complete.
Qed.

(** The two shape patterns are the shapes the specification words. *)
Lemma needsQuotes2_spec (s : string) :
  needsQuotes2 s = true
  <-> leadingSpace s \/ trailingSpace s
      \/ (exists p, In p quotes2Prefixes /\ hasPrefix p s).
Proof. split; [apply needsQuotes2_sound | apply needsQuotes2_complete]. Qed.

Lemma startsWithKeyword_spec (s : string) :
  startsWithKeyword s = true <-> keywordShaped s.
Proof. split; [apply startsWithKeyword_sound | apply startsWithKeyword_complete]. Qed.

Lemma needsEscapeML_triple_quote (s : string) :
  hasSubstring s "'''" -> needsEscapeML s = true.
Proof.
  intros H. unfold needsEscapeML. now rewrite (Contains_complete _ _ H).
Qed.

Lemma existsbS_ext (p q : ascii -> bool) (s : string) :
  (forall c, p c = q c) -> existsbS p s = existsbS q s.
Proof.
  intros H. induction s as [|c s IH]; simpl; [reflexivity|].
  now rewrite H, IH.
Qed.

Lemma needsEscapeName_split (k : string) :
  needsEscapeName k = nameEscapeWorthy k || hasDoubleQuote k.
Proof.
  unfold needsEscapeName, nameEscapeWorthy, hasDoubleQuote.
  rewrite (existsbS_ext isNameChar
             (fun c => (existsb (Ascii.eqb c) specNameChars || regexp.isSpace c)
                       || Ascii.eqb c DQ)).
  - rewrite existsbS_or.
    repeat match goal with |- context [existsbS ?p k] =>
             generalize (existsbS p k); intro end.
    repeat match goal with |- context [Contains k ?p] =>
             generalize (Contains k p); intro end.
    repeat match goal with b : bool |- _ => destruct b end; reflexivity.
  - intros c. unfold isNameChar, nameChars, specNameChars. simpl.
    repeat match goal with |- context [Ascii.eqb c ?x] =>
             generalize (Ascii.eqb c x); intro end.
    generalize (regexp.isSpace c); intro.
    repeat match goal with b : bool |- _ => destruct b end; reflexivity.
Qed.


(** ** The encoder state: options, depth and buffer *)

Lemma WriteString_indent (e : hjsonEncoder) (s : string) :
  indent (WriteString e s) = indent e.
Proof. reflexivity. Qed.

Lemma WriteString_Options (e : hjsonEncoder) (s : string) :
  Options (WriteString e s) = Options e.
Proof. reflexivity. Qed.

Lemma WriteString_prepend (p : string) (e : hjsonEncoder) (s : string) :
  WriteString (prepend p e) s = prepend p (WriteString e s).
Proof. unfold WriteString, prepend. simpl. now rewrite append_assoc. Qed.

Lemma repeatWrite_indent (n : nat) (s : string) (e : hjsonEncoder) :
  indent (repeatWrite n s e) = indent e.
Proof.
  revert e; induction n as [|n IH]; intros e; simpl; [reflexivity|].
  now rewrite IH.
Qed.

Lemma repeatWrite_Options (n : nat) (s : string) (e : hjsonEncoder) :
  Options (repeatWrite n s e) = Options e.
Proof.
  revert e; induction n as [|n IH]; intros e; simpl; [reflexivity|].
  now rewrite IH.
Qed.

Lemma repeatWrite_Buffer (n : nat) (s : string) (e : hjsonEncoder) :
  Buffer (repeatWrite n s e) = Buffer e ++ repeatText n s.
Proof.
  revert e; induction n as [|n IH]; intros e; simpl.
  - now rewrite append_empty_r.
  - rewrite IH. simpl. now rewrite append_assoc.
Qed.

Lemma repeatWrite_prepend (n : nat) (s p : string) (e : hjsonEncoder) :
  repeatWrite n s (prepend p e) = prepend p (repeatWrite n s e).
Proof.
  revert e; induction n as [|n IH]; intros e; simpl; [reflexivity|].
  now rewrite WriteString_prepend, IH.
Qed.

Lemma writeIndent_indent (e : hjsonEncoder) (i : Z) :
  indent (writeIndent e i) = indent e.
Proof. unfold writeIndent. now rewrite repeatWrite_indent. Qed.

Lemma writeIndent_Options (e : hjsonEncoder) (i : Z) :
  Options (writeIndent e i) = Options e.
Proof. unfold writeIndent. now rewrite repeatWrite_Options. Qed.

Lemma writeIndent_Buffer (e : hjsonEncoder) (i : Z) :
  Buffer (writeIndent e i) = Buffer e ++ indentText e i.
Proof.
  unfold writeIndent, indentText. rewrite repeatWrite_Buffer. simpl.
  now rewrite append_assoc.
Qed.

Lemma writeIndent_prepend (p : string) (e : hjsonEncoder) (i : Z) :
  writeIndent (prepend p e) i = prepend p (writeIndent e i).
Proof.
  unfold writeIndent. rewrite WriteString_prepend. apply repeatWrite_prepend.
Qed.

Lemma mlLines_indent (a : list string) (e : hjsonEncoder) :
  indent (mlLines a e) = indent e.
Proof.
  unfold mlLines. revert e; induction a as [|v a IH]; intros e; simpl; [reflexivity|].
  rewrite IH. simpl. apply writeIndent_indent.
Qed.

Lemma mlLines_Options (a : list string) (e : hjsonEncoder) :
  Options (mlLines a e) = Options e.
Proof.
  unfold mlLines. revert e; induction a as [|v a IH]; intros e; simpl; [reflexivity|].
  rewrite IH. simpl. apply writeIndent_Options.
Qed.

Lemma mlLines_prepend (a : list string) (p : string) (e : hjsonEncoder) :
  mlLines a (prepend p e) = prepend p (mlLines a e).
Proof.
  unfold mlLines. revert e; induction a as [|v a IH]; intros e; simpl; [reflexivity|].
  now rewrite writeIndent_prepend, WriteString_prepend, IH.
Qed.

Lemma mlString_unfold (e : hjsonEncoder) (value separator : string) :
  mlString e value separator
  = WriteString
      match strings.Split chr_n (strings.RemoveByte chr_r value) with
      | [line] => WriteString (WriteString e (separator ++ "'''")) line
      | a =>
        let e1 := mlLines a (WriteString (writeIndent e (wrapInt (indent e + 1))) "'''") in
        writeIndent e1 (wrapInt (indent e1 + 1))
      end "'''".
Proof.
  unfold mlString, mlLines.
  now destruct (strings.Split chr_n (strings.RemoveByte chr_r value)) as [|l [|l' a]].
Qed.

Lemma mlString_indent (e : hjsonEncoder) (value separator : string) :
  indent (mlString e value separator) = indent e.
Proof.
  rewrite mlString_unfold.
  destruct (strings.Split chr_n (strings.RemoveByte chr_r value)) as [|l [|l' a]];
    cbv zeta;
    repeat first [ rewrite WriteString_indent
                 | rewrite writeIndent_indent
                 | rewrite mlLines_indent ];
    reflexivity.
Qed.

Lemma mlString_Options (e : hjsonEncoder) (value separator : string) :
  Options (mlString e value separator) = Options e.
Proof.
  rewrite mlString_unfold.
  destruct (strings.Split chr_n (strings.RemoveByte chr_r value)) as [|l [|l' a]];
    cbv zeta;
    repeat first [ rewrite WriteString_Options
                 | rewrite writeIndent_Options
                 | rewrite mlLines_Options ];
    reflexivity.
Qed.

Lemma mlString_prepend (p : string) (e : hjsonEncoder) (value separator : string) :
  mlString (prepend p e) value separator = prepend p (mlString e value separator).
Proof.
  rewrite !mlString_unfold.
  destruct (strings.Split chr_n (strings.RemoveByte chr_r value)) as [|l [|l' a]];
    cbv zeta;
    change (indent (prepend p e)) with (indent e);
    repeat first [ rewrite WriteString_prepend
                 | rewrite writeIndent_prepend
                 | rewrite mlLines_prepend
                 | progress change (indent (prepend p ?x)) with (indent x) ];
    reflexivity.
Qed.

Lemma quote_indent swn (e : hjsonEncoder) (value separator : string) (root : bool) :
  indent (quote swn e value separator root) = indent e.
Proof.
  unfold quote.
  repeat match goal with
         | |- context [if ?c then _ else _] => destruct c
         end; auto using mlString_indent.
Qed.

Lemma quote_Options swn (e : hjsonEncoder) (value separator : string) (root : bool) :
  Options (quote swn e value separator root) = Options e.
Proof.
  unfold quote.
  repeat match goal with
         | |- context [if ?c then _ else _] => destruct c
         end; auto using mlString_Options.
Qed.

Lemma quote_prepend swn (p : string) (e : hjsonEncoder) (value separator : string)
    (root : bool) :
  quote swn (prepend p e) value separator root
  = prepend p (quote swn e value separator root).
Proof.
  unfold quote. change (QuoteAlways (prepend p e)) with (QuoteAlways e).
  repeat match goal with
         | |- context [if ?c then _ else _] => destruct c
         end; auto using WriteString_prepend, mlString_prepend.
Qed.

(** The depth after [str]: no induction is needed, since a container
    assigns the saved depth back. *)
Lemma strKind_indent swn ff rec value noIndent separator root e e' :
  strKind swn ff rec value noIndent separator root e = Ok e' ->
  indent e' = indent e.
Proof.
  unfold strKind, strDefault.
  destruct value; simpl; intros H;
    repeat match type of H with
           | context [if ?c then _ else _] => destruct c
           | context [bind ?r _] => destruct r; simpl in H
           end;
    try discriminate; injection H as <-; simpl;
    rewrite ?quote_indent; reflexivity.
Qed.

Lemma str_indent swn ff value noIndent separator root e e' :
  str swn ff value noIndent separator root e = Ok e' ->
  indent e' = indent e.
Proof.
  intros H.
  destruct value as [ | | |elem|elem|s|i|u|number|b|elems|entries| ].
  2, 3: simpl in H; injection H as <-; reflexivity.
  2, 3: exact (strKind_indent swn ff (str swn ff) elem _ _ _ _ _ H).
  all: exact (strKind_indent swn ff (str swn ff) _ _ _ _ _ _ H).
Qed.

(** ** Every step of [str] only appends to the buffer *)

Lemma MapIndex_map {A B : Type} (g : A -> B) (m : list (string * A)) (key : string) :
  MapIndex (map (fun kv => (fst kv, g (snd kv))) m) key = option_map g (MapIndex m key).
Proof.
  induction m as [|[k v] m IH]; simpl; [reflexivity|].
  now destruct (String.eqb k key).
Qed.

Lemma MapIndex_In {A : Type} (m : list (string * A)) (key : string) (v : A) :
  MapIndex m key = Some v -> In (key, v) m.
Proof.
  induction m as [|[k w] m IH]; simpl; [discriminate|].
  destruct (String.eqb_spec k key) as [->|].
  - intros [= ->]. now left.
  - intros H. right. now apply IH.
Qed.

Lemma strDefault_regular (value : Value) : regular (strDefault value).
Proof.
  split.
  - intros noIndent separator root e p. unfold strDefault.
    change (UnknownAsNull (prepend p e)) with (UnknownAsNull e).
    destruct (UnknownAsNull e); simpl; [now rewrite WriteString_prepend|].
    now destruct (Value_Type value).
  - intros noIndent separator root e e'. unfold strDefault.
    destruct (UnknownAsNull e).
    + intros [= <-]. now split.
    + now destruct (Value_Type value).
Qed.

Lemma strElems_framed (elems : list encoderFn) :
  Forall framed elems ->
  forall e p, strElems elems (prepend p e) = onOk (prepend p) (strElems elems e).
Proof.
  induction 1 as [|f fs Hf Hfs IH]; intros e p; simpl; [reflexivity|].
  change (indent (prepend p e)) with (indent e).
  rewrite writeIndent_prepend, Hf.
  destruct (f true EmptyString false (writeIndent e (indent e))); simpl;
    [apply IH | reflexivity..].
Qed.

Lemma strElems_steady (elems : list encoderFn) :
  Forall steady elems ->
  forall e e', strElems elems e = Ok e' ->
               Options e' = Options e /\ indent e' = indent e.
Proof.
  induction 1 as [|f fs Hf Hfs IH]; intros e e'; simpl.
  - intros [= <-]. now split.
  - destruct (f true EmptyString false (writeIndent e (indent e))) as [e1| |] eqn:E;
      simpl; try discriminate.
    intros H. apply IH in H as [HO HI]. apply Hf in E as [EO EI].
    rewrite HO, HI, EO, EI, writeIndent_Options, writeIndent_indent. now split.
Qed.

Lemma strMembers_framed (members : list (string * encoderFn)) :
  (forall key, framed (memberOf members key)) ->
  forall keys e p,
    strMembers members keys (prepend p e)
    = onOk (prepend p) (strMembers members keys e).
Proof.
  intros Hm keys. induction keys as [|key keys IH]; intros e p; simpl; [reflexivity|].
  change (indent (prepend p e)) with (indent e).
  rewrite writeIndent_prepend, !WriteString_prepend.
  fold (memberOf members key). rewrite (Hm key).
  destruct (memberOf members key false " " false _); simpl;
    [apply IH | reflexivity..].
Qed.

Lemma strMembers_steady (members : list (string * encoderFn)) :
  (forall key, steady (memberOf members key)) ->
  forall keys e e',
    strMembers members keys e = Ok e' ->
    Options e' = Options e /\ indent e' = indent e.
Proof.
  intros Hm keys. induction keys as [|key keys IH]; intros e e'; simpl.
  - intros [= <-]. now split.
  - fold (memberOf members key).
    destruct (memberOf members key false " " false _) as [e1| |] eqn:E;
      simpl; try discriminate.
    intros H. apply IH in H as [HO HI]. apply Hm in E as [EO EI].
    rewrite HO, HI, EO, EI. simpl.
    rewrite writeIndent_Options, writeIndent_indent. now split.
Qed.

Lemma memberOf_regular (rec : Value -> encoderFn) (entries : list (string * Value)) :
  Forall (fun kv => regular (rec (snd kv))) entries ->
  forall key, regular (memberOf (map (fun kv => (fst kv, rec (snd kv))) entries) key).
Proof.
  intros H key. unfold memberOf. rewrite MapIndex_map.
  destruct (MapIndex entries key) as [v|] eqn:E; simpl.
  - apply MapIndex_In in E. rewrite Forall_forall in H. exact (H _ E).
  - apply strDefault_regular.
Qed.

Lemma strKind_framed swn ff rec value :
  regularOn rec value -> framed (strKind swn ff rec value).
Proof.
  intros Hrec noIndent separator root e p.
  destruct value as [ | | |elem|elem|s|i|u|number|b|elems|entries| ];
    try apply strDefault_regular; unfold strKind.
  - now rewrite quote_prepend.
  - simpl. now rewrite !WriteString_prepend.
  - simpl. reflexivity.
  - rewrite !WriteString_prepend.
    change (AllowMinusZero (prepend p (WriteString e separator)))
      with (AllowMinusZero e).
    change (AllowMinusZero (WriteString e separator)) with (AllowMinusZero e).
    repeat match goal with
           | |- context [if ?c then _ else _] => destruct c
           end; simpl; now rewrite ?WriteString_prepend.
  - rewrite !WriteString_prepend. now destruct b.
  - destruct (List.length elems =? 0)%nat; [now rewrite !WriteString_prepend|].
    change (indent (prepend p e)) with (indent e).
    change (setIndent (prepend p e) (wrapInt (indent e + 1)))
      with (prepend p (setIndent e (wrapInt (indent e + 1)))).
    cbv zeta.
    change (BracesSameLine (prepend p (setIndent e (wrapInt (indent e + 1)))))
      with (BracesSameLine e).
    change (BracesSameLine (setIndent e (wrapInt (indent e + 1))))
      with (BracesSameLine e).
    assert (Hf : Forall framed (map rec elems)).
    { apply Forall_map. simpl in Hrec. eapply Forall_impl; [|exact Hrec].
      now intros v [Hv _]. }
    destruct (negb noIndent && negb (BracesSameLine e));
      rewrite ?writeIndent_prepend, !WriteString_prepend,
        (strElems_framed _ Hf);
      (destruct (strElems (map rec elems) _); simpl; [|reflexivity..]);
      now rewrite writeIndent_prepend, WriteString_prepend.
  - destruct (List.length entries =? 0)%nat; [now rewrite !WriteString_prepend|].
    change (EmitRootBraces (prepend p e)) with (EmitRootBraces e).
    change (indent (prepend p e)) with (indent e).
    change (setIndent (prepend p e) (wrapInt (indent e + 1)))
      with (prepend p (setIndent e (wrapInt (indent e + 1)))).
    cbv zeta.
    change (BracesSameLine (prepend p (setIndent e (wrapInt (indent e + 1)))))
      with (BracesSameLine e).
    change (BracesSameLine (setIndent e (wrapInt (indent e + 1))))
      with (BracesSameLine e).
    assert (Hf : forall key,
               framed (memberOf (map (fun kv => (fst kv, rec (snd kv))) entries) key)).
    { intros key. now apply memberOf_regular. }
    destruct (negb root || EmitRootBraces e);
      [destruct (negb noIndent && negb (BracesSameLine e))|];
      rewrite ?writeIndent_prepend, ?WriteString_prepend,
        (strMembers_framed _ Hf);
      (destruct (strMembers _ _ _); simpl; [|reflexivity..]);
      now rewrite ?writeIndent_prepend, ?WriteString_prepend.
Qed.

Lemma strKind_Options swn ff rec value noIndent separator root e e' :
  regularOn rec value ->
  strKind swn ff rec value noIndent separator root e = Ok e' ->
  Options e' = Options e.
Proof.
  intros Hrec.
  destruct value as [ | | |elem|elem|s|i|u|number|b|elems|entries| ];
    try (intros H; now apply strDefault_regular in H); unfold strKind.
  - intros [= <-]. apply quote_Options.
  - simpl. now intros [= <-].
  - simpl. discriminate.
  - repeat match goal with
           | |- context [if ?c then _ else _] => destruct c
           end; now intros [= <-].
  - destruct b; now intros [= <-].
  - destruct (List.length elems =? 0)%nat; [now intros [= <-]|].
    cbv zeta.
    assert (Hs : Forall steady (map rec elems)).
    { apply Forall_map. simpl in Hrec. eapply Forall_impl; [|exact Hrec].
      now intros v [_ Hv]. }
    destruct (strElems (map rec elems) _) as [e1| |] eqn:E; simpl; try discriminate.
    intros [= <-]. apply (strElems_steady _ Hs) in E as [EO _].
    simpl. rewrite writeIndent_Options, EO. simpl.
    now destruct (negb noIndent && negb (BracesSameLine _));
      rewrite ?writeIndent_Options.
  - destruct (List.length entries =? 0)%nat; [now intros [= <-]|].
    cbv zeta.
    assert (Hs : forall key,
               steady (memberOf (map (fun kv => (fst kv, rec (snd kv))) entries) key)).
    { intros key. now apply memberOf_regular. }
    destruct (strMembers _ _ _) as [e1| |] eqn:E; simpl; try discriminate.
    intros [= <-]. apply (strMembers_steady _ Hs) in E as [EO _].
    assert (G : Options e1 = Options e).
    { rewrite EO.
      destruct (negb root || EmitRootBraces _); [|reflexivity].
      simpl.
      now destruct (negb noIndent && negb (BracesSameLine _));
        rewrite ?writeIndent_Options. }
    destruct (negb root || EmitRootBraces _); simpl;
      now rewrite ?writeIndent_Options.
Qed.

Lemma strKind_regular swn ff rec value :
  regularOn rec value -> regular (strKind swn ff rec value).
Proof.
  intros Hrec. split; [now apply strKind_framed|].
  intros noIndent separator root e e' H. split.
  - exact (strKind_Options _ _ _ _ _ _ _ _ _ Hrec H).
  - exact (strKind_indent _ _ _ _ _ _ _ _ _ H).
Qed.

(** [str] is regular on every value: its output is appended to the
    buffer and does not depend on it, and the options and the depth are
    left as they were. *)
Lemma str_regular swn ff value :
  regular (str swn ff value)
  /\ regular (strKind swn ff (str swn ff) value).
Proof.
  induction value
    as [ | | |elem [_ IH]|elem [_ IH]|s|i|u|number|b|elems IH|entries IH| ]
    using Value_ind.
  1, 6-10, 13:
    split; (apply (strKind_regular swn ff (str swn ff)); exact I).
  1, 2:
    split; [|apply strDefault_regular];
    (split;
     [ intros noIndent separator root e p; simpl;
       now rewrite !WriteString_prepend
     | intros noIndent separator root e e'; simpl; now intros [= <-] ]).
  1, 2: split; [exact IH | apply strDefault_regular].
  - assert (R : regularOn (str swn ff) (VSlice elems)).
    { simpl. eapply Forall_impl; [|exact IH]. now intros v [Hv _]. }
    split; exact (strKind_regular swn ff (str swn ff) _ R).
  - assert (R : regularOn (str swn ff) (VMap entries)).
    { simpl. eapply Forall_impl; [|exact IH]. now intros v [Hv _]. }
    split; exact (strKind_regular swn ff (str swn ff) _ R).
Qed.

(** What [str] appends: the encoding from the blank encoder. *)
Lemma framed_output (f : encoderFn) noIndent separator root e e' :
  framed f ->
  f noIndent separator root e = Ok e' ->
  exists e0,
    f noIndent separator root (blank e) = Ok e0
    /\ e' = prepend (Buffer e) e0.
Proof.
  intros Hf H.
  assert (E : e = prepend (Buffer e) (blank e)).
  { destruct e. unfold prepend, blank. simpl. now rewrite append_empty_r. }
  rewrite E, Hf in H.
  destruct (f noIndent separator root (blank e)) as [e0| |]; simpl in H;
    try discriminate.
  exists e0. split; [reflexivity|]. now injection H as <-.
Qed.

(** ** The order of mapping keys *)

Lemma Less_lt (a b : string) : Less a b = true <-> String_as_OT.lt a b.
Proof.
  unfold Less, String.ltb. rewrite <- String_as_OT.cmp_lt.
  change (String_as_OT.cmp a b) with (String.compare a b).
  destruct (String.compare a b); split; congruence.
Qed.

Lemma Less_trans (a b c : string) :
  Less a b = true -> Less b c = true -> Less a c = true.
Proof.
  rewrite !Less_lt. apply String_as_OT.lt_trans.
Qed.

Lemma Less_irrefl (a : string) : Less a a = false.
Proof.
  destruct (Less a a) eqn:E; [|reflexivity].
  apply Less_lt in E. apply String_as_OT.lt_not_eq in E.
  exfalso. apply E. reflexivity.
Qed.

Lemma leAlpha_cases (a b : string) : leAlpha a b -> a = b \/ ltAlpha a b.
Proof.
  unfold leAlpha, ltAlpha, Less, String.ltb.
  rewrite (String.compare_antisym b a).
  destruct (String.compare a b) eqn:E; simpl; intros H.
  - left. now apply String.compare_eq_iff.
  - now right.
  - discriminate.
Qed.

Lemma ltAlpha_leAlpha (a b : string) : ltAlpha a b -> leAlpha a b.
Proof.
  unfold ltAlpha, leAlpha. intros H.
  destruct (Less b a) eqn:E; [|reflexivity].
  pose proof (Less_trans _ _ _ H E) as C. now rewrite Less_irrefl in C.
Qed.

Lemma leAlpha_refl (a : string) : leAlpha a a.
Proof. apply Less_irrefl. Qed.

Lemma leAlpha_trans (a b c : string) : leAlpha a b -> leAlpha b c -> leAlpha a c.
Proof.
  intros Hab Hbc.
  destruct (leAlpha_cases _ _ Hab) as [->|Hab']; [exact Hbc|].
  destruct (leAlpha_cases _ _ Hbc) as [<-|Hbc']; [exact Hab|].
  apply ltAlpha_leAlpha. exact (Less_trans _ _ _ Hab' Hbc').
Qed.

Lemma leAlpha_antisym (a b : string) : leAlpha a b -> leAlpha b a -> a = b.
Proof.
  intros Hab Hba. destruct (leAlpha_cases _ _ Hab) as [E|H]; [exact E|].
  unfold leAlpha, ltAlpha in *. congruence.
Qed.

Lemma insertAlpha_Permutation (k : string) (l : list string) :
  Permutation (insertAlpha k l) (k :: l).
Proof.
  induction l as [|x l IH]; simpl; [apply Permutation_refl|].
  destruct (Less x k); [|apply Permutation_refl].
  eapply Permutation_trans; [apply perm_skip, IH | apply perm_swap].
Qed.

Lemma sortAlpha_Permutation (l : list string) : Permutation (sortAlpha l) l.
Proof.
  induction l as [|k l IH]; simpl; [constructor|].
  eapply Permutation_trans; [apply insertAlpha_Permutation | now apply perm_skip].
Qed.

Lemma insertAlpha_sorted (k : string) (l : list string) :
  StronglySorted leAlpha l -> StronglySorted leAlpha (insertAlpha k l).
Proof.
  induction 1 as [|x l Hs IH Hx]; simpl.
  - constructor; constructor.
  - destruct (Less x k) eqn:E.
    + constructor; [exact IH|].
      apply (Permutation_Forall (Permutation_sym (insertAlpha_Permutation k l))).
      constructor; [now apply ltAlpha_leAlpha | exact Hx].
    + constructor; [now constructor|].
      constructor; [exact E|].
      eapply Forall_impl; [|exact Hx].
      intros y Hy. exact (leAlpha_trans _ _ _ E Hy).
Qed.

Lemma sortAlpha_sorted (l : list string) : StronglySorted leAlpha (sortAlpha l).
Proof.
  induction l as [|k l IH]; simpl; [constructor | now apply insertAlpha_sorted].
Qed.

(** An ascending list is determined by its elements. *)
Lemma sorted_Permutation_eq (l1 l2 : list string) :
  StronglySorted leAlpha l1 -> StronglySorted leAlpha l2 ->
  Permutation l1 l2 -> l1 = l2.
Proof.
  revert l2; induction l1 as [|a t1 IH]; intros l2 H1 H2 P.
  - now apply Permutation_nil in P.
  - destruct l2 as [|b t2]; [now apply Permutation_sym, Permutation_nil in P|].
    apply StronglySorted_inv in H1 as [H1 Ha], H2 as [H2 Hb].
    assert (Hab : leAlpha a b).
    { assert (I : In b (a :: t1))
        by (apply (Permutation_in _ (Permutation_sym P)); now left).
      destruct I as [->|I]; [apply leAlpha_refl|].
      rewrite Forall_forall in Ha. now apply Ha. }
    assert (Hba : leAlpha b a).
    { assert (I : In a (b :: t2)) by (apply (Permutation_in _ P); now left).
      destruct I as [->|I]; [apply leAlpha_refl|].
      rewrite Forall_forall in Hb. now apply Hb. }
    pose proof (leAlpha_antisym _ _ Hab Hba) as <-.
    f_equal. apply IH; [assumption..|]. now apply Permutation_cons_inv in P.
Qed.

Lemma sortAlpha_Permutation_eq (l l' : list string) :
  Permutation l l' -> sortAlpha l = sortAlpha l'.
Proof.
  intros P. apply sorted_Permutation_eq; try apply sortAlpha_sorted.
  eapply Permutation_trans; [apply sortAlpha_Permutation|].
  eapply Permutation_trans; [exact P|].
  apply Permutation_sym, sortAlpha_Permutation.
Qed.

Lemma sorted_NoDup_strict (l : list string) :
  StronglySorted leAlpha l -> NoDup l -> StronglySorted ltAlpha l.
Proof.
  induction 1 as [|a l Hs IH Ha]; intros N; [constructor|].
  inversion N as [|? ? Hnotin N']; subst.
  constructor; [now apply IH|].
  rewrite Forall_forall in *. intros x Hx.
  destruct (leAlpha_cases _ _ (Ha x Hx)) as [->|H]; [contradiction | exact H].
Qed.

Lemma MapIndex_Permutation {A : Type} (m m' : list (string * A)) (key : string) :
  Permutation m m' -> NoDup (MapKeys m) -> MapIndex m key = MapIndex m' key.
Proof.
  induction 1 as [|[k v] l l' P IH|[k1 v1] [k2 v2] l|l l' l2 P1 IH1 P2 IH2];
    simpl; intros N.
  - reflexivity.
  - inversion N; subst. now rewrite IH.
  - inversion N as [|? ? Hnotin N']; subst.
    destruct (String.eqb_spec k1 key) as [->|], (String.eqb_spec k2 key) as [->|];
      try reflexivity.
    exfalso. apply Hnotin. now left.
  - rewrite IH1 by assumption. apply IH2.
    unfold MapKeys in *. eapply Permutation_NoDup; [|exact N].
    now apply Permutation_map.
Qed.


(** ** The text of a mapping *)

Lemma MapIndex_Some {A : Type} (m : list (string * A)) (key : string) :
  In key (MapKeys m) -> exists v, MapIndex m key = Some v.
Proof.
  induction m as [|[k v] m IH]; simpl; [contradiction|].
  destruct (String.eqb_spec k key) as [->|Hne].
  - intros _. now exists v.
  - intros [H|H]; [contradiction | now apply IH].
Qed.

Lemma blank_eq (e e' : hjsonEncoder) :
  Options e' = Options e -> indent e' = indent e -> blank e' = blank e.
Proof. unfold blank. now intros -> ->. Qed.

(** The member loop writes one line per key, in the order of [keys]. *)
Lemma strMembers_output (members : list (string * encoderFn)) :
  (forall key, regular (memberOf members key)) ->
  forall keys e e',
    strMembers members keys e = Ok e' ->
    exists texts,
      Forall2
        (fun key text =>
           textOf (memberOf members key) false " " false (Options e) (indent e)
           = Ok text)
        keys texts
      /\ Buffer e'
         = Buffer e
             ++ concatS (map (memberLine (Options e) (indent e)) (combine keys texts)).
Proof.
  intros Hm keys. induction keys as [|key keys IH]; intros e e'; simpl.
  - intros [= <-]. exists []. split; [constructor|]. simpl.
    now rewrite append_empty_r.
  - fold (memberOf members key).
    set (e1 := WriteString
                 (WriteString (writeIndent e (indent e)) (quoteName key)) ":").
    destruct (memberOf members key false " " false e1) as [e2| |] eqn:E;
      simpl; try discriminate.
    intros H.
    destruct (Hm key) as [Hf Hs].
    destruct (Hs _ _ _ _ _ E) as [EO EI].
    assert (O1 : Options e1 = Options e)
      by (unfold e1; simpl; apply writeIndent_Options).
    assert (I1 : indent e1 = indent e)
      by (unfold e1; simpl; apply writeIndent_indent).
    destruct (framed_output _ _ _ _ _ _ Hf E) as (e0 & E0 & Ee2).
    rewrite (blank_eq e e1 O1 I1) in E0.
    destruct (IH _ _ H) as (texts & HF & HB).
    rewrite EO, O1, EI, I1 in HF, HB.
    exists (Buffer e0 :: texts). split.
    + constructor; [|exact HF].
      unfold textOf. fold (blank e). now rewrite E0.
    + rewrite HB, Ee2. unfold e1. simpl.
      rewrite writeIndent_Buffer. unfold memberLine. simpl.
      now rewrite !append_assoc.
Qed.

Lemma Forall2_impl_In {A B : Type} (R1 R2 : A -> B -> Prop) (l : list A) (l' : list B) :
  (forall a b, In a l -> R1 a b -> R2 a b) ->
  Forall2 R1 l l' -> Forall2 R2 l l'.
Proof.
  intros H F. induction F as [|a b l l' Hab F IH]; constructor.
  - apply H; [now left | exact Hab].
  - apply IH. intros x y Hx. apply H. now right.
Qed.

Lemma members_regular swn ff (entries : list (string * Value)) :
  forall key,
    regular (memberOf (map (fun kv => (fst kv, str swn ff (snd kv))) entries) key).
Proof.
  apply memberOf_regular. apply Forall_forall. intros kv _. apply str_regular.
Qed.

(** The text of a non-empty mapping: the opening, one line per key in
    the order of the sorted keys, each with the text of the value stored
    under the key, and the closing. *)
Lemma str_map_output swn ff (entries : list (string * Value))
    noIndent separator root e e' :
  entries <> [] ->
  str swn ff (VMap entries) noIndent separator root e = Ok e' ->
  exists texts,
    Forall2 (memberText swn ff entries (Options e) (wrapInt (indent e + 1)))
      (sortAlpha (MapKeys entries)) texts
    /\ Buffer e'
       = Buffer e ++ mapOpening e noIndent separator root
           ++ concatS (map (memberLine (Options e) (wrapInt (indent e + 1)))
                         (combine (sortAlpha (MapKeys entries)) texts))
           ++ mapClosing e root.
Proof.
  intros Hne H.
  assert (L : (List.length entries =? 0)%nat = false)
    by (destruct entries; [contradiction | reflexivity]).
  change (strKind swn ff (str swn ff) (VMap entries) noIndent separator root e
          = Ok e') in H.
  unfold strKind in H. rewrite L in H. cbv zeta in H.
  set (members := map (fun kv => (fst kv, str swn ff (snd kv))) entries) in *.
  set (e1 := setIndent e (wrapInt (indent e + 1))) in *.
  change (EmitRootBraces e1) with (EmitRootBraces e) in H.
  change (BracesSameLine e1) with (BracesSameLine e) in H.
  set (start :=
         if negb root || EmitRootBraces e then
           WriteString
             (if negb noIndent && negb (BracesSameLine e)
              then writeIndent e1 (indent e) else WriteString e1 separator) "{"
         else e1) in *.
  assert (SO : Options start = Options e).
  { unfold start.
    destruct (negb root || EmitRootBraces e); [|reflexivity].
    now destruct (negb noIndent && negb (BracesSameLine e));
      simpl; rewrite ?writeIndent_Options. }
  assert (SI : indent start = wrapInt (indent e + 1)).
  { unfold start.
    destruct (negb root || EmitRootBraces e); [|reflexivity].
    now destruct (negb noIndent && negb (BracesSameLine e));
      simpl; rewrite ?writeIndent_indent. }
  assert (SB : Buffer start = Buffer e ++ mapOpening e noIndent separator root).
  { unfold start, mapOpening.
    destruct (negb root || EmitRootBraces e);
      [|simpl; now rewrite append_empty_r].
    destruct (negb noIndent && negb (BracesSameLine e)); simpl;
      rewrite ?writeIndent_Buffer; simpl; now rewrite !append_assoc. }
  destruct (strMembers members (sortAlpha (MapKeys entries)) start)
    as [e2| |] eqn:E; simpl in H; try discriminate.
  injection H as <-.
  destruct (strMembers_output members (members_regular swn ff entries) _ _ _ E)
    as (texts & HF & HB).
  rewrite SO, SI in HF, HB.
  exists texts. split.
  - eapply Forall2_impl_In; [|exact HF].
    intros key text Hin Ht. cbv beta in Ht.
    assert (Hk : In key (MapKeys entries)).
    { eapply Permutation_in; [apply sortAlpha_Permutation | exact Hin]. }
    destruct (MapIndex_Some _ _ Hk) as (v & Hv).
    exists v. split; [exact Hv|].
    unfold memberOf, members in Ht. now rewrite MapIndex_map, Hv in Ht.
  - destruct (strMembers_steady members
                (fun key => proj2 (members_regular swn ff entries key)) _ _ _ E)
      as [EO EI].
    unfold mapClosing.
    destruct (negb root || EmitRootBraces e); simpl.
    + rewrite writeIndent_Buffer, HB, SB, EO, SO.
      now rewrite !append_assoc.
    + rewrite HB, SB, append_empty_r. now rewrite !append_assoc.
Qed.

(** ** One value, two presentations *)

Lemma strElems_agree (fs gs : list encoderFn) :
  Forall2 agree fs gs -> forall e, strElems fs e = strElems gs e.
Proof.
  induction 1 as [|f g fs gs Hfg F IH]; intros e; simpl; [reflexivity|].
  rewrite Hfg. destruct (g true EmptyString false _); simpl; auto.
Qed.

Lemma strMembers_agree (m m' : list (string * encoderFn)) :
  (forall key, agree (memberOf m key) (memberOf m' key)) ->
  forall keys e, strMembers m keys e = strMembers m' keys e.
Proof.
  intros H keys. induction keys as [|key keys IH]; intros e; simpl; [reflexivity|].
  fold (memberOf m key). fold (memberOf m' key). rewrite H.
  destruct (memberOf m' key false " " false _); simpl; auto.
Qed.

Lemma sameValue_MapKeys (r m' : list (string * Value)) :
  Forall2 (fun kv kv' => fst kv = fst kv' /\ sameValue (snd kv) (snd kv')) r m' ->
  MapKeys r = MapKeys m'.
Proof.
  induction 1 as [|kv kv' r m' [Hk _] F IH]; simpl; [reflexivity|].
  now rewrite Hk, IH.
Qed.

Lemma sameValue_MapIndex (r m' : list (string * Value)) (key : string) :
  Forall2 (fun kv kv' => fst kv = fst kv' /\ sameValue (snd kv) (snd kv')) r m' ->
  (MapIndex r key = None /\ MapIndex m' key = None)
  \/ exists v v',
       MapIndex r key = Some v /\ MapIndex m' key = Some v' /\ sameValue v v'.
Proof.
  induction 1 as [|[k v] [k' v'] r m' [Hk Hv] F IH]; simpl; [now left|].
  simpl in Hk, Hv. subst k'.
  destruct (String.eqb k key); [|exact IH].
  right. now exists v, v'.
Qed.

Lemma sameValue_Kind (a b : Value) : sameValue a b -> Value_Kind a = Value_Kind b.
Proof. now destruct 1. Qed.

Lemma strDefault_agree (a b : Value) :
  Value_Kind a = Value_Kind b -> agree (strDefault a) (strDefault b).
Proof.
  intros H noIndent separator root e. unfold strDefault.
  destruct (UnknownAsNull e); [reflexivity|].
  destruct a, b; try discriminate H; reflexivity.
Qed.

(** [str] does not tell two presentations of one value apart. *)
Lemma str_sameValue swn ff (value : Value) :
  forall value',
    sameValue value value' ->
    agree (str swn ff value) (str swn ff value')
    /\ agree (strKind swn ff (str swn ff) value)
             (strKind swn ff (str swn ff) value').
Proof.
  induction value
    as [ | | |elem IH|elem IH|s|i|u|number|b|elems IH|entries IH| ]
    using Value_ind;
    intros value' S;
    inversion S as [ v Ev1 Ev2
                   | a a' Sa Ea Ea'
                   | a a' Sa Ea Ea'
                   | l l' Sl El El'
                   | m reordered m' N P F Em Em' ];
    subst;
    try (split; intros ? ? ? ?; reflexivity).
  - (* interface *)
    destruct (IH _ Sa) as [_ IHk]. split; [exact IHk|].
    now apply strDefault_agree.
  - (* pointer *)
    destruct (IH _ Sa) as [_ IHk]. split; [exact IHk|].
    now apply strDefault_agree.
  - (* slice *)
    assert (G : agree (strKind swn ff (str swn ff) (VSlice elems))
                      (strKind swn ff (str swn ff) (VSlice l'))).
    { intros noIndent separator root e. unfold strKind.
      rewrite <- (Forall2_length Sl).
      assert (A : Forall2 agree (map (str swn ff) elems) (map (str swn ff) l')).
      { clear S. induction Sl as [|a b l l' Hab Sl IHF]; simpl; constructor.
        - inversion IH as [|? ? Ha]; subst. now apply Ha.
        - inversion IH; subst. now apply IHF. }
      destruct (List.length elems =? 0)%nat; [reflexivity|].
      cbv zeta. now rewrite (strElems_agree _ _ A). }
    split; exact G.
  - (* map *)
    assert (G : agree (strKind swn ff (str swn ff) (VMap entries))
                      (strKind swn ff (str swn ff) (VMap m'))).
    { intros noIndent separator root e. unfold strKind.
      assert (HK : MapKeys reordered = MapKeys m')
        by now apply sameValue_MapKeys.
      assert (PK : Permutation (MapKeys entries) (MapKeys reordered))
        by now apply Permutation_map.
      rewrite <- (Forall2_length F), <- (Permutation_length P).
      rewrite <- HK, <- (sortAlpha_Permutation_eq _ _ PK).
      destruct (List.length entries =? 0)%nat; [reflexivity|].
      cbv zeta.
      rewrite (strMembers_agree
                 (map (fun kv => (fst kv, str swn ff (snd kv))) entries)
                 (map (fun kv => (fst kv, str swn ff (snd kv))) m'));
        [reflexivity|].
      intros key. unfold memberOf. rewrite !MapIndex_map.
      rewrite (MapIndex_Permutation _ _ key P N).
      destruct (sameValue_MapIndex _ _ key F)
        as [[-> ->]|(v & v' & Ev & -> & Hv)]; simpl.
      - intros ? ? ? ?; reflexivity.
      - assert (I : In (key, v) entries).
        { apply MapIndex_In in Ev.
          eapply Permutation_in; [apply Permutation_sym; exact P | exact Ev]. }
        rewrite Ev. simpl. rewrite Forall_forall in IH.
        exact (proj1 (IH _ I v' Hv)). }
    split; exact G.
Qed.

(** C4. Take a non-empty mapping with distinct keys and any presentation
    [value'] of it: the same mapping with its entries, and those of the
    mappings inside it, exposed in whatever order.  The sorted key
    sequence is strictly ascending in the byte-wise order of the key
    texts and holds exactly the keys of the mapping; [str] returns for
    [value'] what it returns for the mapping, so two encodings of one
    mapping give the same bytes; and when it returns normally the buffer
    has received the opening, then for each key in ascending order one
    line with the key, a colon and the text of the value stored under
    that key, then the closing. *)
Theorem map_keys_ascending_and_deterministic
    swn ff (entries : list (string * Value)) (value' : Value)
    noIndent separator root e :
  entries <> [] ->
  NoDup (MapKeys entries) ->
  sameValue (VMap entries) value' ->
  let keys := sortAlpha (MapKeys entries) in
  let depth := wrapInt (indent e + 1) in
  StronglySorted ltAlpha keys
  /\ Permutation keys (MapKeys entries)
  /\ str swn ff value' noIndent separator root e
     = str swn ff (VMap entries) noIndent separator root e
  /\ forall e',
       str swn ff value' noIndent separator root e = Ok e' ->
       exists texts,
         Forall2 (memberText swn ff entries (Options e) depth) keys texts
         /\ Buffer e'
            = Buffer e ++ mapOpening e noIndent separator root
                ++ concatS (map (memberLine (Options e) depth) (combine keys texts))
                ++ mapClosing e root.
Proof.
  intros Hne N S keys depth.
  assert (D : str swn ff value' noIndent separator root e
              = str swn ff (VMap entries) noIndent separator root e).
  { symmetry. apply (str_sameValue swn ff (VMap entries) value' S). }
  split; [|split; [|split]].
  - apply sorted_NoDup_strict; [apply sortAlpha_sorted|].
    eapply Permutation_NoDup; [|exact N].
    apply Permutation_sym, sortAlpha_Permutation.
  - apply sortAlpha_Permutation.
  - exact D.
  - intros e' H. rewrite D in H. now apply str_map_output.
Qed.

Lemma map_keys_ascending_and_deterministic_witness :
  let entries :=
    [("b", VString "hello world"); ("a", VInt 1);
     ("ab", VMap [("y", VBool true); ("x", VSlice [])])] in
  let value' :=
    VMap [("ab", VMap [("x", VSlice []); ("y", VBool true)]);
          ("b", VString "hello world"); ("a", VInt 1)] in
  let e := newEncoder DefaultOptions in
  sortAlpha (MapKeys entries) = ["a"; "ab"; "b"]
  /\ str startsWithNumberSpec noFiniteFloats value' true EmptyString true e
     = str startsWithNumberSpec noFiniteFloats (VMap entries) true EmptyString true e.
Proof.
  intros entries value' e.
  split; [reflexivity|].
  apply (map_keys_ascending_and_deterministic
           startsWithNumberSpec noFiniteFloats entries value' true EmptyString true e).
  - discriminate.
  - repeat constructor; simpl; intuition discriminate.
  - apply (same_map entries
             [("ab", VMap [("y", VBool true); ("x", VSlice [])]);
              ("b", VString "hello world"); ("a", VInt 1)]).
    + repeat constructor; simpl; intuition discriminate.
    + eapply perm_trans; [apply perm_skip, perm_swap | apply perm_swap].
    + repeat constructor.
      apply (same_map _ [("x", VSlice []); ("y", VBool true)]).
      * repeat constructor; simpl; intuition discriminate.
      * apply perm_swap.
      * repeat constructor.
Defined.

(** ** The quoting decision for values *)

Lemma quote_bare swn (e : hjsonEncoder) (s separator : string) (root : bool) :
  s <> EmptyString ->
  QuoteAlways e = false ->
  needsQuotes s = false ->
  ~ leadingSpace s ->
  ~ trailingSpace s ->
  (forall p, In p quotes2Prefixes -> ~ hasPrefix p s) ->
  swn s = false ->
  ~ keywordShaped s ->
  quote swn e s separator root = WriteString e (separator ++ s).
Proof.
  intros Hne Hqa Hq Hlead Htrail Hpre Hnum Hkw.
  unfold quote.
  destruct s as [|c t]; [contradiction|]. simpl len. cbv iota.
  change (Nat.eqb (S (String.length t)) 0) with false. cbv iota.
  rewrite Hqa, Hq, Hnum.
  destruct (needsQuotes2 (String c t)) eqn:E2.
  { apply needsQuotes2_sound in E2 as [H|[H|(p & Hin & H)]];
      [contradiction | contradiction | now apply Hpre in H]. }
  destruct (startsWithKeyword (String c t)) eqn:Ek.
  { now apply startsWithKeyword_sound in Ek. }
  reflexivity.
Qed.

(** C1. A non-empty string with no character of the needsQuotes class,
    no leading or trailing whitespace, none of the structural or
    comment-introducing prefixes of needsQuotes2 (double quote, three
    single quotes, hash, slash-star, slash-slash, opening brace, opening
    bracket), that does not start with a number and is not
    keyword-shaped, is written bare when QuoteAlways is false: the
    separator followed by the string itself. *)
Theorem bare_string swn ff (e : hjsonEncoder) (s : string) noIndent separator root :
  s <> EmptyString ->
  QuoteAlways e = false ->
  needsQuotes s = false ->
  ~ leadingSpace s ->
  ~ trailingSpace s ->
  (forall p, In p quotes2Prefixes -> ~ hasPrefix p s) ->
  swn s = false ->
  ~ keywordShaped s ->
  str swn ff (VString s) noIndent separator root e
  = Ok (WriteString e (separator ++ s)).
Proof.
  intros. simpl. unfold strKind. f_equal. now apply quote_bare.
Qed.

Lemma bare_string_witness :
  str startsWithNumberSpec noFiniteFloats (VString "hello world")
    false " " false (newEncoder DefaultOptions)
  = Ok (WriteString (newEncoder DefaultOptions) " hello world").
Proof.
  apply (bare_string startsWithNumberSpec noFiniteFloats
           (newEncoder DefaultOptions) "hello world" false " " false).
  - discriminate.
  - reflexivity.
  - vm_compute. reflexivity.
  - intros (c & t & Heq & Hc). injection Heq as <- <-. discriminate Hc.
  - intros (t & c & Heq & Hc).
    pose proof (lastByte_complete t c) as L. rewrite <- Heq in L.
    injection L as <-. discriminate Hc.
  - intros p Hin (t & Heq). simpl in Hin.
    repeat (destruct Hin as [<-|Hin]; [discriminate Heq|]). exact Hin.
  - reflexivity.
  - intros (kw & ws & tail & Heq & Hin & _). simpl in Hin.
    repeat (destruct Hin as [<-|Hin]; [discriminate Heq|]). exact Hin.
Defined.

(** The empty string meets every condition above but the first, and is
    written as two double quotes, not bare. *)
Lemma empty_string_shape :
  needsQuotes EmptyString = false
  /\ ~ leadingSpace EmptyString
  /\ ~ trailingSpace EmptyString
  /\ (forall p, In p quotes2Prefixes -> ~ hasPrefix p EmptyString)
  /\ ~ keywordShaped EmptyString.
Proof.
  repeat split.
  - intros (c & t & Heq & _). discriminate Heq.
  - intros (t & c & Heq & _). destruct t; discriminate Heq.
  - intros p Hin (t & Heq). simpl in Hin.
    repeat (destruct Hin as [<-|Hin]; [discriminate Heq|]). exact Hin.
  - intros (kw & ws & tail & Heq & Hin & _). simpl in Hin.
    repeat (destruct Hin as [<-|Hin]; [discriminate Heq|]). exact Hin.
Qed.

Lemma empty_string_quoted swn ff noIndent separator root e :
  str swn ff (VString EmptyString) noIndent separator root e
  = Ok (WriteString e (separator ++ emptyQuoted)).
Proof. reflexivity. Qed.

(** [MarshalWithOptions] of such a string is the string itself. *)
Lemma Marshal_bare_string swn ff (s : string) (options : EncoderOptions) :
  s <> EmptyString ->
  QuoteAlways options = false ->
  needsQuotes s = false ->
  ~ leadingSpace s ->
  ~ trailingSpace s ->
  (forall p, In p quotes2Prefixes -> ~ hasPrefix p s) ->
  swn s = false ->
  ~ keywordShaped s ->
  MarshalWithOptions swn ff (VString s) options = Ok s.
Proof.
  intros Hne Hqa Hq Hlead Htrail Hpre Hnum Hkw.
  unfold MarshalWithOptions. simpl. unfold strKind.
  rewrite quote_bare by assumption. reflexivity.
Qed.

(** ** The multiline form *)

Lemma quote_without_multiline swn (e : hjsonEncoder) (s separator : string) (root : bool) :
  hasSubstring s "'''" \/ root = true ->
  quote swn e s separator root
  = if (len s =? 0)%nat then WriteString e (separator ++ emptyQuoted)
    else if QuoteAlways e || needsQuotes s || needsQuotes2 s
            || swn s || startsWithKeyword s then
      if needsEscape s then
        WriteString e (separator ++ str1 DQ ++ quoteReplace s ++ str1 DQ)
      else
        WriteString e (separator ++ str1 DQ ++ s ++ str1 DQ)
    else WriteString e (separator ++ s).
Proof.
  intros H. unfold quote.
  assert (G : negb (needsEscapeML s) && negb root = false).
  { destruct H as [H| ->]; [|apply andb_false_r].
    unfold needsEscapeML. now rewrite (Contains_complete _ _ H). }
  rewrite G. now destruct (needsEscape s).
Qed.

(** C2 (as amended). For a string that contains three single quotes in a
    row, or that is the root value, the multiline form is not chosen:
    the empty string is written as two double quotes, a string that
    needs no quoting is written bare, and a string that needs quoting is
    written between double quotes, escaped when it has an escape-worthy
    character and as it is otherwise. *)
Theorem no_multiline_for_triple_quote_or_root
    swn ff (e : hjsonEncoder) (s : string) noIndent separator root :
  hasSubstring s "'''" \/ root = true ->
  str swn ff (VString s) noIndent separator root e
  = Ok (if (len s =? 0)%nat then WriteString e (separator ++ emptyQuoted)
        else if QuoteAlways e || needsQuotes s || needsQuotes2 s
                || swn s || startsWithKeyword s then
          if needsEscape s then
            WriteString e (separator ++ str1 DQ ++ quoteReplace s ++ str1 DQ)
          else
            WriteString e (separator ++ str1 DQ ++ s ++ str1 DQ)
        else WriteString e (separator ++ s)).
Proof.
  intros H. simpl. unfold strKind. f_equal. now apply quote_without_multiline.
Qed.

Lemma no_multiline_for_triple_quote_or_root_witness :
  let e := newEncoder DefaultOptions in
  let s := " a'''b" ++ str1 chr_n in
  str startsWithNumberSpec noFiniteFloats (VString s) false " " false e
  = Ok (WriteString e
          (" " ++ str1 DQ ++ " a'''b" ++ String BS "n" ++ str1 DQ)).
Proof.
  intros e s.
  rewrite (no_multiline_for_triple_quote_or_root
             startsWithNumberSpec noFiniteFloats e s false " " false).
  - vm_compute. reflexivity.
  - left. exists " a", ("b" ++ str1 chr_n). reflexivity.
Defined.

(** C2 (as stated) fails: a nested string that contains three single
    quotes in a row and needs no quoting is written bare, and so is a
    root string that needs no quoting; no double quote is written for
    either. *)
Lemma triple_quote_string_written_bare :
  let e := newEncoder DefaultOptions in
  hasSubstring "a'''b" "'''"
  /\ str startsWithNumberSpec noFiniteFloats (VString "a'''b") false " " false e
     = Ok (WriteString e " a'''b")
  /\ hasDoubleQuote " a'''b" = false
  /\ str startsWithNumberSpec noFiniteFloats (VString "hello") true EmptyString true e
     = Ok (WriteString e "hello")
  /\ hasDoubleQuote "hello" = false.
Proof.
  intros e. repeat split.
  - exists "a", "b". reflexivity.
Qed.

(** The multiline form is chosen for a nested string that needs quoting,
    has an escape-worthy character and neither three single quotes in a
    row nor a character of the needsEscapeML class. *)
Lemma multiline_when_allowed swn (e : hjsonEncoder) (s separator : string) :
  s <> EmptyString ->
  needsQuotes2 s = true ->
  needsEscape s = true ->
  needsEscapeML s = false ->
  quote swn e s separator false = mlString e s separator.
Proof.
  intros Hne H2 He Hml. unfold quote.
  destruct s as [|c t]; [contradiction|]. simpl len. cbv iota.
  change (Nat.eqb (S (String.length t)) 0) with false. cbv iota.
  rewrite H2, He, Hml.
  rewrite !orb_true_r. reflexivity.
Qed.

(** ** Mapping keys *)

(** C8 (as amended). An empty key is written as two double quotes.  A
    non-empty key is wrapped in double quotes exactly when it matches
    the Name-escape-worthy set of the specification or contains a double
    quote; it is escaped first exactly when it matches the escape-worthy
    class.  Any other key is written bare. *)
Theorem quoteName_decision (k : string) :
  quoteName k
  = if (len k =? 0)%nat then emptyQuoted
    else if nameEscapeWorthy k || hasDoubleQuote k then
      str1 DQ ++ (if needsEscape k then quoteReplace k else k) ++ str1 DQ
    else k.
Proof.
  unfold quoteName. now rewrite needsEscapeName_split.
Qed.

(** C8 (as stated) fails: a key with a double quote and nothing of the
    Name-escape-worthy set of the specification is still wrapped in
    double quotes (and escaped), not written bare. *)
Lemma key_with_double_quote_is_wrapped :
  let k := "a" ++ str1 DQ ++ "b" in
  nameEscapeWorthy k = false
  /\ quoteName k = str1 DQ ++ "a" ++ String BS (str1 DQ) ++ "b" ++ str1 DQ
  /\ quoteName k <> k.
Proof.
  intros k. split; [|split].
  - vm_compute. reflexivity.
  - vm_compute. reflexivity.
  - vm_compute. discriminate.
Qed.

(** ** The indentation depth *)

(** C9. Push/pop discipline: whenever [str] finishes encoding a sequence
    or a mapping (it returns no error and does not panic), the
    indentation depth of the encoder is what it was before the call. *)
Theorem container_restores_indent swn ff value noIndent separator root e e' :
  isContainer value = true ->
  str swn ff value noIndent separator root e = Ok e' ->
  indent e' = indent e.
Proof. intros _. apply str_indent. Qed.

Lemma container_restores_indent_witness :
  let e := newEncoder DefaultOptions in
  let value := VSlice [VMap [("k", VSlice [VInt 1])]; VString "x"] in
  exists e',
    str startsWithNumberSpec noFiniteFloats value true EmptyString true e = Ok e'
    /\ indent e' = indent e.
Proof.
  intros e value.
  destruct (str startsWithNumberSpec noFiniteFloats value true EmptyString true e)
    as [e'| |] eqn:H; [|vm_compute in H; discriminate..].
  exists e'. split; [reflexivity|].
  exact (container_restores_indent _ _ value _ _ _ e e' eq_refl H).
Defined.

(** ** Nil pointers and interfaces *)

(** A value of kind Interface or Ptr that is nil when [str] receives it
    is written as the separator followed by null, and [str] returns no
    error, whatever the UnknownAsNull field of the encoder. *)
Lemma nil_encodes_as_null swn ff noIndent separator root e :
  str swn ff VNilPtr noIndent separator root e
    = Ok (WriteString (WriteString e separator) "null")
  /\ str swn ff VNilInterface noIndent separator root e
    = Ok (WriteString (WriteString e separator) "null").
Proof. split; reflexivity. Qed.

(** C10 (the code departs from the claim). The nil test of [str] is made
    once, on a value of kind Interface or Ptr, before the single
    dereference; two nil values escape it.  The nil interface given to
    [Marshal] is shown by reflect.ValueOf as the zero Value, of kind
    Invalid: it reaches the default case, which panics when it asks for
    its type.  A nil pointer held in an interface, as an element of a
    slice of interfaces is, is met after the dereference: it reaches the
    default case too, where UnknownAsNull decides between null written
    without the separator and the unsupported-type error, so that
    [Marshal] returns the error. *)
Theorem nil_interface_panics_and_held_nil_pointer_errors swn ff
    (options : EncoderOptions) noIndent separator root (e : hjsonEncoder) :
  MarshalWithOptions swn ff VInvalid options
  = Panic (ValueError "reflect.Value.Type" KInvalid)
  /\ MarshalWithOptions swn ff (VInterface VNilPtr) options
     = Err (UnsupportedType KPtr)
  /\ MarshalWithOptions swn ff (VSlice [VInterface VNilPtr]) options
     = Err (UnsupportedType KPtr)
  /\ str swn ff (VInterface VNilPtr) noIndent separator root e
     = (if UnknownAsNull e then Ok (WriteString e "null")
        else Err (UnsupportedType KPtr)).
Proof.
  repeat split; reflexivity.
Qed.

(** ** Integers *)

Lemma signed_integer_text swn ff i noIndent separator root e :
  str swn ff (VInt i) noIndent separator root e
  = Ok (WriteString (WriteString e separator) (strconv.FormatInt i)).
Proof. reflexivity. Qed.

(** C7 (the code departs from the claim). A value of an unsigned kind
    enters the integer case of the switch, where [value.Int()] panics:
    no text is returned for it, under any options. *)
Theorem unsigned_integer_panics swn ff u options :
  MarshalWithOptions swn ff (VUint u) options
  = Panic (ValueError "reflect.Value.Int" KUint).
Proof. reflexivity. Qed.

(** ** Options that never reach the encoder *)

Lemma minus_zero_when_allowed swn ff noIndent separator root (e : hjsonEncoder) :
  AllowMinusZero e = true ->
  str swn ff (VFloat (S754_zero true)) noIndent separator root e
  = Ok (WriteString (WriteString e separator) "-0").
Proof.
  intros H. simpl. unfold strKind. simpl. rewrite H. reflexivity.
Qed.

(** C5 (the code departs from the claim). [MarshalWithOptions] encodes
    negative zero as 0 for every options record, also for one whose
    AllowMinusZero field is true: the field is not copied into the
    encoder. *)
Theorem minus_zero_option_ignored swn ff options :
  MarshalWithOptions swn ff (VFloat (S754_zero true)) options = Ok "0".
Proof. reflexivity. Qed.

Lemma unknown_as_null_when_set swn ff noIndent separator root (e : hjsonEncoder) :
  UnknownAsNull e = true ->
  str swn ff VOther noIndent separator root e = Ok (WriteString e "null").
Proof.
  intros H. simpl. unfold strKind, strDefault. rewrite H. reflexivity.
Qed.

(** C6 (the code departs from the claim). [MarshalWithOptions] returns
    the unsupported-type error for a value of an unsupported kind under
    every options record, also one whose UnknownAsNull field is true: the
    field is not copied into the encoder. *)
Theorem unknown_as_null_option_ignored swn ff options :
  MarshalWithOptions swn ff VOther options = Err (UnsupportedType KOther).
Proof. reflexivity. Qed.

(** ** Where the error comes from *)

Lemma strElems_Err_inv (rec : Value -> encoderFn) (elems : list Value) :
  Forall (fun v => steady (rec v)) elems ->
  forall e err,
    strElems (map rec elems) e = Err err ->
    exists v e1,
      In v elems /\ Options e1 = Options e
      /\ rec v true EmptyString false e1 = Err err.
Proof.
  induction 1 as [|x l Hx Hl IH]; intros e err; simpl; [discriminate|].
  destruct (rec x true EmptyString false (writeIndent e (indent e)))
    as [e2|err2|] eqn:E; simpl; try discriminate.
  - intros H. apply IH in H as (v & e1 & Hin & HO & HE).
    exists v, e1. split; [now right|]. split; [|exact HE].
    apply Hx in E as [EO _]. now rewrite HO, EO, writeIndent_Options.
  - intros [= <-]. exists x, (writeIndent e (indent e)).
    split; [now left|]. split; [apply writeIndent_Options | exact E].
Qed.

Lemma strMembers_Err_inv (members : list (string * encoderFn)) :
  (forall key, steady (memberOf members key)) ->
  forall keys e err,
    strMembers members keys e = Err err ->
    exists key e1,
      Options e1 = Options e
      /\ memberOf members key false " " false e1 = Err err.
Proof.
  intros Hm keys. induction keys as [|key keys IH]; intros e err; simpl;
    [discriminate|].
  fold (memberOf members key).
  destruct (memberOf members key false " " false _) as [e2|err2|] eqn:E;
    simpl; try discriminate.
  - intros H. apply IH in H as (k & e1 & HO & HE).
    exists k, e1. split; [|exact HE].
    apply Hm in E as [EO _]. rewrite HO, EO. simpl. apply writeIndent_Options.
  - intros [= <-]. eexists key, _. split; [|exact E].
    simpl. apply writeIndent_Options.
Qed.

Lemma strDefault_Err_inv (value : Value) noIndent separator root
    (e : hjsonEncoder) err :
  strDefault value noIndent separator root e = Err err ->
  UnknownAsNull e = false /\ value <> VInvalid.
Proof.
  unfold strDefault. destruct (UnknownAsNull e); [discriminate|].
  intros H. split; [reflexivity|]. intros ->. discriminate H.
Qed.

(** [str] returns the error only for a value with a node that reaches
    the default case, and only from an encoder whose UnknownAsNull field
    is false. *)
Lemma str_Err_inv swn ff (value : Value) :
  (forall noIndent separator root (e : hjsonEncoder) err,
      str swn ff value noIndent separator root e = Err err ->
      unsupported value = true /\ UnknownAsNull e = false)
  /\ (forall noIndent separator root (e : hjsonEncoder) err,
         strKind swn ff (str swn ff) value noIndent separator root e = Err err ->
         unsupportedKind unsupported value = true /\ UnknownAsNull e = false).
Proof.
  induction value
    as [ | | |elem [_ IH]|elem [_ IH]|s|i|u|number|b|elems IH|entries IH| ]
    using Value_ind.
  1, 13:
    split; intros noIndent separator root e err H;
    apply (strDefault_Err_inv _ noIndent separator root) in H as [H _]; now split.
  1, 2:
    split; intros noIndent separator root e err H;
    [discriminate H | apply (strDefault_Err_inv _ noIndent separator root) in H as [H _]; now split].
  1, 2:
    split; intros noIndent separator root e err H;
    [exact (IH _ _ _ _ _ H) | apply (strDefault_Err_inv _ noIndent separator root) in H as [H _]; now split].
  1-5:
    split; intros noIndent separator root e err H; exfalso;
    simpl in H; unfold strKind in H; simpl in H;
    repeat match type of H with
           | context [if ?c then _ else _] => destruct c
           end; discriminate H.
  - assert (G : forall noIndent separator root (e : hjsonEncoder) err,
               strKind swn ff (str swn ff) (VSlice elems) noIndent separator root e
               = Err err ->
               existsb unsupported elems = true /\ UnknownAsNull e = false).
    { intros noIndent separator root e err H. unfold strKind in H.
      destruct (List.length elems =? 0)%nat; [discriminate H|].
      cbv zeta in H.
      destruct (strElems (map (str swn ff) elems) _) as [e2|err2|] eqn:E;
        simpl in H; try discriminate H.
      apply strElems_Err_inv in E as (v & e1 & Hin & HO & HE);
        [|apply Forall_forall; intros x _; apply str_regular].
      rewrite Forall_forall in IH. destruct (IH v Hin) as [IHv _].
      destruct (IHv _ _ _ _ _ HE) as [Hu Hn]. split.
      - apply existsb_exists. now exists v.
      - rewrite HO in Hn. simpl in Hn.
        now destruct (negb noIndent && negb (BracesSameLine _));
          simpl in Hn; rewrite ?writeIndent_Options in Hn. }
    split; exact G.
  - assert (G : forall noIndent separator root (e : hjsonEncoder) err,
               strKind swn ff (str swn ff) (VMap entries) noIndent separator root e
               = Err err ->
               existsb (fun kv => unsupported (snd kv)) entries = true
               /\ UnknownAsNull e = false).
    { intros noIndent separator root e err H. unfold strKind in H.
      destruct (List.length entries =? 0)%nat; [discriminate H|].
      cbv zeta in H.
      destruct (strMembers _ _ _) as [e2|err2|] eqn:E;
        simpl in H; try discriminate H.
      apply strMembers_Err_inv in E as (key & e1 & HO & HE);
        [|intros k; apply members_regular].
      assert (HOe : Options e1 = Options e).
      { rewrite HO.
        destruct (negb root || EmitRootBraces _); [|reflexivity].
        simpl.
        now destruct (negb noIndent && negb (BracesSameLine _));
          rewrite ?writeIndent_Options. }
      unfold memberOf in HE. rewrite MapIndex_map in HE.
      destruct (MapIndex entries key) as [v|] eqn:Ev; simpl in HE.
      - apply MapIndex_In in Ev. rewrite Forall_forall in IH.
        destruct (IH _ Ev) as [IHv _]. simpl in IHv.
        destruct (IHv _ _ _ _ _ HE) as [Hu Hn]. split.
        + apply existsb_exists. now exists (key, v).
        + now rewrite HOe in Hn.
      - apply (strDefault_Err_inv _ false " " false) in HE as [_ HE]. now contradiction HE. }
    split; exact G.
Qed.

Lemma str_no_error_when_unknown_as_null
    swn ff value noIndent separator root (e : hjsonEncoder) err :
  UnknownAsNull e = true ->
  str swn ff value noIndent separator root e <> Err err.
Proof.
  intros Hu H. apply (str_Err_inv swn ff value) in H as [_ H]. congruence.
Qed.

Lemma Marshal_error_only_for_unsupported swn ff value options err :
  MarshalWithOptions swn ff value options = Err err ->
  unsupported value = true.
Proof.
  unfold MarshalWithOptions.
  destruct (str swn ff value true EmptyString true _) as [e'|err'|] eqn:E;
    simpl; try discriminate.
  intros _. now apply (str_Err_inv swn ff value) in E.
Qed.

(** ** The escaper *)

Lemma quoteReplace_table_and_passthrough :
  quoteReplace ("a" ++ str1 chr_n ++ str1 DQ ++ str1 BS ++ "b")
  = "a" ++ String BS "n" ++ String BS (str1 DQ) ++ String BS (str1 BS) ++ "b".
Proof. vm_compute. reflexivity. Qed.

(** C3 (the code departs from the claim). An escape-worthy character that
    is not in the table is replaced by backslash, u and four zeros
    whatever its codepoint: DEL (U+007F), the soft hyphen (U+00AD) and
    U+200C all become the escape of U+0000. *)
Theorem quoteReplace_loses_codepoint :
  quoteReplace (str1 "127"%char) = String BS "u0000"
  /\ quoteReplace softHyphen = String BS "u0000"
  /\ quoteReplace ("a" ++ zwnj ++ "b") = "a" ++ String BS "u0000" ++ "b".
Proof. vm_compute. repeat split; reflexivity. Qed.


(** * Further properties of the encoder *)

(** ** The three outcomes of [str] *)

Lemma strElems_stop (rec : Value -> encoderFn) (elems : list Value) :
  Forall (fun v => steady (rec v)) elems ->
  forall e r,
    strElems (map rec elems) e = r ->
    (forall e', r <> Ok e') ->
    exists v e1,
      In v elems /\ Options e1 = Options e
      /\ rec v true EmptyString false e1 = r.
Proof.
  induction 1 as [|x l Hx Hl IH]; intros e r; simpl.
  - intros <- H. now contradiction (H e).
  - destruct (rec x true EmptyString false (writeIndent e (indent e)))
      as [e2|err2|p2] eqn:E; simpl.
    + intros H Hr. destruct (IH _ _ H Hr) as (v & e1 & Hin & HO & HE).
      exists v, e1. split; [now right|]. split; [|exact HE].
      apply Hx in E as [EO _]. now rewrite HO, EO, writeIndent_Options.
    + intros <- _. exists x, (writeIndent e (indent e)).
      split; [now left|]. split; [apply writeIndent_Options | exact E].
    + intros <- _. exists x, (writeIndent e (indent e)).
      split; [now left|]. split; [apply writeIndent_Options | exact E].
Qed.

Lemma strMembers_stop (members : list (string * encoderFn)) :
  (forall key, steady (memberOf members key)) ->
  forall keys e r,
    strMembers members keys e = r ->
    (forall e', r <> Ok e') ->
    exists key e1,
      In key keys /\ Options e1 = Options e
      /\ memberOf members key false " " false e1 = r.
Proof.
  intros Hm keys. induction keys as [|key keys IH]; intros e r; simpl.
  - intros <- H. now contradiction (H e).
  - fold (memberOf members key).
    destruct (memberOf members key false " " false _) as [e2|err2|p2] eqn:E;
      simpl.
    + intros H Hr. destruct (IH _ _ H Hr) as (k & e1 & Hin & HO & HE).
      exists k, e1. split; [now right|]. split; [|exact HE].
      apply Hm in E as [EO _]. rewrite HO, EO. simpl. apply writeIndent_Options.
    + intros <- _. eexists key, _. split; [now left|]. split; [|exact E].
      simpl. apply writeIndent_Options.
    + intros <- _. eexists key, _. split; [now left|]. split; [|exact E].
      simpl. apply writeIndent_Options.
Qed.

Lemma sortAlpha_In (keys : list string) (key : string) :
  In key (sortAlpha keys) -> In key keys.
Proof. apply Permutation_in, sortAlpha_Permutation. Qed.

(** A panic of [str] comes from a node of an unsigned kind (method Int)
    or from a zero Value met by an encoder whose UnknownAsNull field is
    false (method Type). *)
Lemma str_Panic_inv swn ff (value : Value) :
  (forall noIndent separator root (e : hjsonEncoder) p,
      str swn ff value noIndent separator root e = Panic p ->
      panicNode value = true
      /\ (p = ValueError "reflect.Value.Int" KUint
          \/ p = ValueError "reflect.Value.Type" KInvalid
             /\ UnknownAsNull e = false))
  /\ (forall noIndent separator root (e : hjsonEncoder) p,
         strKind swn ff (str swn ff) value noIndent separator root e = Panic p ->
         panicKind panicNode value = true
         /\ (p = ValueError "reflect.Value.Int" KUint
             \/ p = ValueError "reflect.Value.Type" KInvalid
                /\ UnknownAsNull e = false)).
Proof.
  assert (D : forall (v : Value) noIndent separator root (e : hjsonEncoder) p,
             strDefault v noIndent separator root e = Panic p ->
             v = VInvalid /\ p = ValueError "reflect.Value.Type" KInvalid
             /\ UnknownAsNull e = false).
  { intros v noIndent separator root e p. unfold strDefault.
    destruct (UnknownAsNull e); [discriminate|].
    destruct v; simpl; try discriminate. now intros [= <-]. }
  induction value
    as [ | | |elem [_ IH]|elem [_ IH]|s|i|u|number|b|elems IH|entries IH| ]
    using Value_ind.
  1:
    split; intros noIndent separator root e p H;
    apply (D _ noIndent separator root) in H as (_ & -> & H);
    (split; [reflexivity | now right]).
  12:
    split; intros noIndent separator root e p H;
    now apply (D _ noIndent separator root) in H as (H & _).
  1, 2:
    split; intros noIndent separator root e p H;
    [discriminate H | now apply (D _ noIndent separator root) in H as (H & _)].
  1, 2:
    split; intros noIndent separator root e p H;
    [exact (IH _ _ _ _ _ H) | now apply (D _ noIndent separator root) in H as (H & _)].
  1, 2, 4, 5:
    split; intros noIndent separator root e p H; exfalso;
    simpl in H; unfold strKind in H; simpl in H;
    repeat match type of H with
           | context [if ?c then _ else _] => destruct c
           end; discriminate H.
  - split; intros noIndent separator root e p H;
      simpl in H; unfold strKind in H; simpl in H;
      injection H as <-; (split; [reflexivity | now left]).
  - assert (G : forall noIndent separator root (e : hjsonEncoder) p,
               strKind swn ff (str swn ff) (VSlice elems) noIndent separator root e
               = Panic p ->
               existsb panicNode elems = true
               /\ (p = ValueError "reflect.Value.Int" KUint
                   \/ p = ValueError "reflect.Value.Type" KInvalid
                      /\ UnknownAsNull e = false)).
    { intros noIndent separator root e p H. unfold strKind in H.
      destruct (List.length elems =? 0)%nat; [discriminate H|].
      cbv zeta in H.
      destruct (strElems (map (str swn ff) elems) _) as [e2|err2|p2] eqn:E;
        simpl in H; try discriminate H. injection H as ->.
      apply strElems_stop in E as (v & e1 & Hin & HO & HE);
        [|apply Forall_forall; intros x _; apply str_regular | discriminate].
      rewrite Forall_forall in IH. destruct (IH v Hin) as [IHv _].
      destruct (IHv _ _ _ _ _ HE) as [Hu Hp]. split.
      - apply existsb_exists. now exists v.
      - destruct Hp as [Hp|[Hp Hn]]; [now left | right]. split; [exact Hp|].
        rewrite HO in Hn. simpl in Hn.
        now destruct (negb noIndent && negb (BracesSameLine _));
          simpl in Hn; rewrite ?writeIndent_Options in Hn. }
    split; exact G.
  - assert (G : forall noIndent separator root (e : hjsonEncoder) p,
               strKind swn ff (str swn ff) (VMap entries) noIndent separator root e
               = Panic p ->
               existsb (fun kv => panicNode (snd kv)) entries = true
               /\ (p = ValueError "reflect.Value.Int" KUint
                   \/ p = ValueError "reflect.Value.Type" KInvalid
                      /\ UnknownAsNull e = false)).
    { intros noIndent separator root e p H. unfold strKind in H.
      destruct (List.length entries =? 0)%nat; [discriminate H|].
      cbv zeta in H.
      destruct (strMembers _ _ _) as [e2|err2|p2] eqn:E;
        simpl in H; try discriminate H. injection H as ->.
      apply strMembers_stop in E as (key & e1 & Hin & HO & HE);
        [|intros k; apply members_regular | discriminate].
      assert (HOe : Options e1 = Options e).
      { rewrite HO.
        destruct (negb root || EmitRootBraces _); [|reflexivity].
        simpl.
        now destruct (negb noIndent && negb (BracesSameLine _));
          rewrite ?writeIndent_Options. }
      apply sortAlpha_In in Hin. destruct (MapIndex_Some _ _ Hin) as (v & Ev).
      unfold memberOf in HE. rewrite MapIndex_map, Ev in HE. simpl in HE.
      apply MapIndex_In in Ev. rewrite Forall_forall in IH.
      destruct (IH _ Ev) as [IHv _]. simpl in IHv.
      destruct (IHv _ _ _ _ _ HE) as [Hu Hp]. split.
      + apply existsb_exists. now exists (key, v).
      + destruct Hp as [Hp|[Hp Hn]]; [now left | right]. split; [exact Hp|].
        now rewrite HOe in Hn. }
    split; exact G.
Qed.

Lemma strElems_Ok (fs : list encoderFn) :
  Forall (fun f => forall noIndent separator root e,
                     exists e', f noIndent separator root e = Ok e') fs ->
  forall e, exists e', strElems fs e = Ok e'.
Proof.
  induction 1 as [|f fs Hf Hfs IH]; intros e; simpl; [now exists e|].
  destruct (Hf true EmptyString false (writeIndent e (indent e))) as (e1 & ->).
  simpl. apply IH.
Qed.

Lemma strMembers_Ok (members : list (string * encoderFn)) (keys : list string) :
  (forall key, In key keys ->
               forall noIndent separator root e,
                 exists e', memberOf members key noIndent separator root e = Ok e') ->
  forall e, exists e', strMembers members keys e = Ok e'.
Proof.
  induction keys as [|key keys IH]; intros H e; simpl; [now exists e|].
  fold (memberOf members key).
  destruct (H key (or_introl eq_refl) false " " false
              (WriteString
                 (WriteString (writeIndent e (indent e)) (quoteName key)) ":"))
    as (e1 & ->).
  simpl. apply IH. intros k Hk. apply H. now right.
Qed.

Lemma str_encodable_Ok swn ff (value : Value) :
  (encodable value = true ->
   forall noIndent separator root e,
     exists e', str swn ff value noIndent separator root e = Ok e')
  /\ (encodableKind encodable value = true ->
      forall noIndent separator root e,
        exists e',
          strKind swn ff (str swn ff) value noIndent separator root e = Ok e').
Proof.
  induction value
    as [ | | |elem [_ IH]|elem [_ IH]|s|i|u|number|b|elems IH|entries IH| ]
    using Value_ind;
    try (split; discriminate).
  1, 2: split; [intros _ noIndent separator root e; simpl; eauto | discriminate].
  1, 2: split; [exact IH | discriminate].
  1-4:
    split; intros _ noIndent separator root e;
    simpl; unfold strKind; simpl;
    repeat match goal with
           | |- context [if ?c then _ else _] => destruct c
           end; eauto.
  - assert (G : forallb encodable elems = true ->
               forall noIndent separator root e,
                 exists e',
                   strKind swn ff (str swn ff) (VSlice elems)
                     noIndent separator root e = Ok e').
    { intros Hall noIndent separator root e. unfold strKind.
      destruct (List.length elems =? 0)%nat; [eauto|].
      cbv zeta.
      assert (F : Forall (fun f => forall noIndent separator root e,
                            exists e', f noIndent separator root e = Ok e')
                    (map (str swn ff) elems)).
      { apply Forall_map. rewrite forallb_forall in Hall.
        rewrite Forall_forall in IH |- *. intros v Hv.
        exact (proj1 (IH v Hv) (Hall v Hv)). }
      match goal with
      | |- context [strElems _ ?st] =>
        destruct (strElems_Ok _ F st) as (e1 & ->)
      end.
      simpl. eauto. }
    split; exact G.
  - assert (G : forallb (fun kv => encodable (snd kv)) entries = true ->
               forall noIndent separator root e,
                 exists e',
                   strKind swn ff (str swn ff) (VMap entries)
                     noIndent separator root e = Ok e').
    { intros Hall noIndent separator root e. unfold strKind.
      destruct (List.length entries =? 0)%nat; [eauto|].
      cbv zeta.
      assert (F : forall key,
                 In key (sortAlpha (MapKeys entries)) ->
                 forall noIndent separator root e,
                   exists e',
                     memberOf (map (fun kv => (fst kv, str swn ff (snd kv))) entries)
                       key noIndent separator root e = Ok e').
      { intros key Hin. apply sortAlpha_In in Hin.
        destruct (MapIndex_Some _ _ Hin) as (v & Ev).
        unfold memberOf. rewrite MapIndex_map, Ev. simpl.
        apply MapIndex_In in Ev. rewrite forallb_forall in Hall.
        rewrite Forall_forall in IH.
        exact (proj1 (IH _ Ev) (Hall _ Ev)). }
      match goal with
      | |- context [strMembers ?m ?ks ?st] =>
        destruct (strMembers_Ok m ks F st) as (e1 & ->)
      end.
      simpl. eauto. }
    split; exact G.
Qed.

(** X1. [MarshalWithOptions] returns a text, with no error and no
    panic, whatever the options, for every value that is [encodable]: a
    pointer or interface that is nil where [str] receives it (the root
    when it is a typed nil pointer, an element of a slice, a value of a
    map), or, directly or behind exactly one interface or pointer that
    is not nil, a string, a signed integer, a float, a boolean, or a
    slice or map whose elements are again encodable.  The nil interface
    given to [Marshal] itself (the zero Value), a nil pointer held in an
    interface, a pointer to a pointer and the unsigned integers are not
    encodable, and nothing is said of them here. *)
Theorem Marshal_succeeds_on_encodable swn ff (value : Value)
    (options : EncoderOptions) :
  encodable value = true ->
  exists text, MarshalWithOptions swn ff value options = Ok text.
Proof.
  intros H. unfold MarshalWithOptions.
  match goal with
  | |- context [str swn ff value true EmptyString true ?st] =>
    destruct (proj1 (str_encodable_Ok swn ff value) H true EmptyString true st)
      as (e' & ->)
  end.
  simpl. eauto.
Qed.

Lemma Marshal_succeeds_on_encodable_witness :
  exists text,
    MarshalWithOptions startsWithNumberSpec noFiniteFloats
      (VMap [("list", VSlice [VInt 1; VNilPtr; VPtr (VBool true)]);
             ("name", VInterface (VString "x"))])
      DefaultOptions
    = Ok text.
Proof.
  apply Marshal_succeeds_on_encodable. reflexivity.
Defined.

(** X2. [str] returns the unsupported-type error only for a value with a
    node that reaches the default case of the switch (a kind the switch
    does not list, or an interface or pointer behind the one dereference),
    and only from an encoder whose UnknownAsNull field is false. *)
Theorem str_error_only_at_unsupported_node
    swn ff (value : Value) noIndent separator root (e : hjsonEncoder) err :
  str swn ff value noIndent separator root e = Err err ->
  unsupported value = true /\ UnknownAsNull e = false.
Proof. apply (str_Err_inv swn ff value). Qed.

Lemma str_error_only_at_unsupported_node_witness :
  unsupported (VSlice [VInt 1; VPtr (VPtr (VInt 2))]) = true
  /\ UnknownAsNull (newEncoder DefaultOptions) = false.
Proof.
  apply (str_error_only_at_unsupported_node startsWithNumberSpec noFiniteFloats
           (VSlice [VInt 1; VPtr (VPtr (VInt 2))]) true EmptyString true
           (newEncoder DefaultOptions) (UnsupportedType KPtr)).
  reflexivity.
Defined.

(** X3. [str] panics only for a value with a node of an unsigned integer
    kind (the panic of reflect's Int) or with a zero Value met while
    UnknownAsNull is false (the panic of reflect's Type); it never panics
    otherwise. *)
Theorem str_panic_only_at_unsigned_or_zero_Value
    swn ff (value : Value) noIndent separator root (e : hjsonEncoder) p :
  str swn ff value noIndent separator root e = Panic p ->
  panicNode value = true
  /\ (p = ValueError "reflect.Value.Int" KUint
      \/ p = ValueError "reflect.Value.Type" KInvalid /\ UnknownAsNull e = false).
Proof. apply (str_Panic_inv swn ff value). Qed.

Lemma str_panic_only_at_unsigned_or_zero_Value_witness :
  panicNode (VMap [("a", VString "x"); ("b", VSlice [VUint 7])]) = true
  /\ (ValueError "reflect.Value.Int" KUint = ValueError "reflect.Value.Int" KUint
      \/ ValueError "reflect.Value.Int" KUint = ValueError "reflect.Value.Type" KInvalid
         /\ UnknownAsNull (newEncoder DefaultOptions) = false).
Proof.
  apply (str_panic_only_at_unsigned_or_zero_Value
           startsWithNumberSpec noFiniteFloats
           (VMap [("a", VString "x"); ("b", VSlice [VUint 7])])
           true EmptyString true (newEncoder DefaultOptions)).
  reflexivity.
Defined.

(** ** What [str] appends *)

(** X4. What [str] does never depends on what the buffer already holds:
    the outcome from an encoder [e] is the outcome from the same encoder
    with an empty buffer, with the buffer of [e] put back in front of the
    text on normal return, and the same error or panic otherwise. *)
Theorem str_only_appends swn ff (value : Value) noIndent separator root
    (e : hjsonEncoder) :
  str swn ff value noIndent separator root e
  = onOk (prepend (Buffer e)) (str swn ff value noIndent separator root (blank e)).
Proof.
  destruct (str_regular swn ff value) as [[Hf _] _].
  rewrite <- Hf. f_equal.
  destruct e. unfold prepend, blank. simpl. now rewrite append_empty_r.
Qed.

(** The element loop writes one line per element, in order. *)
Lemma strElems_output (fs : list encoderFn) :
  Forall regular fs ->
  forall e e',
    strElems fs e = Ok e' ->
    exists texts,
      Forall2
        (fun f text => textOf f true EmptyString false (Options e) (indent e) = Ok text)
        fs texts
      /\ Buffer e'
         = Buffer e ++ concatS (map (elemLine (Options e) (indent e)) texts).
Proof.
  induction 1 as [|f fs [Hf Hs] Hfs IH]; intros e e'; simpl.
  - intros [= <-]. exists []. split; [constructor|]. simpl.
    now rewrite append_empty_r.
  - set (e1 := writeIndent e (indent e)).
    destruct (f true EmptyString false e1) as [e2| |] eqn:E;
      simpl; try discriminate.
    intros H.
    destruct (Hs _ _ _ _ _ E) as [EO EI].
    assert (O1 : Options e1 = Options e) by apply writeIndent_Options.
    assert (I1 : indent e1 = indent e) by apply writeIndent_indent.
    destruct (framed_output _ _ _ _ _ _ Hf E) as (e0 & E0 & Ee2).
    rewrite (blank_eq e e1 O1 I1) in E0.
    destruct (IH _ _ H) as (texts & HF & HB).
    rewrite EO, O1, EI, I1 in HF, HB.
    exists (Buffer e0 :: texts). split.
    + constructor; [|exact HF].
      unfold textOf. fold (blank e). now rewrite E0.
    + rewrite HB, Ee2. unfold e1. simpl.
      rewrite writeIndent_Buffer. unfold elemLine. simpl.
      now rewrite !append_assoc.
Qed.

Lemma Forall2_map_l {A B C : Type} (g : A -> B) (R : B -> C -> Prop)
    (l : list A) (l' : list C) :
  Forall2 R (map g l) l' -> Forall2 (fun a c => R (g a) c) l l'.
Proof.
  revert l'. induction l as [|a l IH]; intros l' H; inversion H; subst;
    constructor; auto.
Qed.

(** X5. The text of a non-empty slice: the opening bracket (on a new
    line at the depth of the slice, unless the slice is the root, follows
    a key with BracesSameLine, or is itself an element), then every
    element in order on a line of its own, one level deeper, encoded
    with an empty separator, then the closing bracket on a new line at
    the depth of the slice. *)
Theorem slice_text swn ff (elems : list Value) noIndent separator root
    (e e' : hjsonEncoder) :
  elems <> [] ->
  str swn ff (VSlice elems) noIndent separator root e = Ok e' ->
  exists texts,
    Forall2
      (fun v text =>
         textOf (str swn ff v) true EmptyString false
           (Options e) (wrapInt (indent e + 1)) = Ok text)
      elems texts
    /\ Buffer e'
       = Buffer e ++ sliceOpening e noIndent separator
           ++ concatS (map (elemLine (Options e) (wrapInt (indent e + 1))) texts)
           ++ sliceClosing e.
Proof.
  intros Hne H.
  assert (L : (List.length elems =? 0)%nat = false)
    by (destruct elems; [contradiction | reflexivity]).
  change (strKind swn ff (str swn ff) (VSlice elems) noIndent separator root e
          = Ok e') in H.
  unfold strKind in H. rewrite L in H. cbv zeta in H.
  set (e1 := setIndent e (wrapInt (indent e + 1))) in *.
  change (BracesSameLine e1) with (BracesSameLine e) in H.
  set (start :=
         WriteString
           (if negb noIndent && negb (BracesSameLine e)
            then writeIndent e1 (indent e) else WriteString e1 separator) "[") in *.
  assert (SO : Options start = Options e).
  { unfold start.
    now destruct (negb noIndent && negb (BracesSameLine e));
      simpl; rewrite ?writeIndent_Options. }
  assert (SI : indent start = wrapInt (indent e + 1)).
  { unfold start.
    now destruct (negb noIndent && negb (BracesSameLine e));
      simpl; rewrite ?writeIndent_indent. }
  assert (SB : Buffer start = Buffer e ++ sliceOpening e noIndent separator).
  { unfold start, sliceOpening.
    destruct (negb noIndent && negb (BracesSameLine e)); simpl;
      rewrite ?writeIndent_Buffer; simpl; now rewrite !append_assoc. }
  assert (R : Forall regular (map (str swn ff) elems)).
  { apply Forall_map, Forall_forall. intros v _. apply str_regular. }
  destruct (strElems (map (str swn ff) elems) start) as [e2| |] eqn:E;
    simpl in H; try discriminate.
  injection H as <-.
  destruct (strElems_output _ R _ _ E) as (texts & HF & HB).
  rewrite SO, SI in HF, HB.
  exists texts. split.
  - now apply Forall2_map_l in HF.
  - assert (St : Forall (fun f => steady f) (map (str swn ff) elems)).
    { eapply Forall_impl; [|exact R]. now intros f [_ Hs]. }
    destruct (strElems_steady _ St _ _ E) as [EO EI].
    simpl. rewrite writeIndent_Buffer, HB, SB, EO, SO.
    unfold sliceClosing. now rewrite !append_assoc.
Qed.

Lemma slice_text_witness :
  exists texts,
    Forall2
      (fun v text =>
         textOf (str startsWithNumberSpec noFiniteFloats v) true EmptyString false
           DefaultOptions (wrapInt (0 + 1)) = Ok text)
      [VInt 1; VString "a b"] texts
    /\ "[" ++ str1 chr_n ++ "  1" ++ str1 chr_n ++ "  a b" ++ str1 chr_n ++ "]"
       = EmptyString
           ++ sliceOpening (newEncoder DefaultOptions) true EmptyString
           ++ concatS (map (elemLine DefaultOptions (wrapInt (0 + 1))) texts)
           ++ sliceClosing (newEncoder DefaultOptions).
Proof.
  apply (slice_text startsWithNumberSpec noFiniteFloats
           [VInt 1; VString "a b"] true EmptyString true
           (newEncoder DefaultOptions)
           {| Buffer := "[" ++ str1 chr_n ++ "  1" ++ str1 chr_n ++ "  a b"
                          ++ str1 chr_n ++ "]";
              Options := DefaultOptions; indent := 0 |});
    [discriminate | reflexivity].
Defined.

(** ** Normal return means an encodable value *)

Lemma strElems_Ok_inv (rec : Value -> encoderFn) (elems : list Value) :
  Forall (fun v => steady (rec v)) elems ->
  forall e e',
    strElems (map rec elems) e = Ok e' ->
    forall v, In v elems ->
      exists e1 e2,
        Options e1 = Options e /\ rec v true EmptyString false e1 = Ok e2.
Proof.
  induction 1 as [|x l Hx Hl IH]; intros e e'; simpl; [now intros _ v []|].
  destruct (rec x true EmptyString false (writeIndent e (indent e)))
    as [e2| |] eqn:E; simpl; try discriminate.
  intros H v [<-|Hin].
  - exists (writeIndent e (indent e)), e2.
    split; [apply writeIndent_Options | exact E].
  - destruct (IH _ _ H v Hin) as (e1 & e3 & HO & HE).
    exists e1, e3. split; [|exact HE].
    apply Hx in E as [EO _]. now rewrite HO, EO, writeIndent_Options.
Qed.

Lemma strMembers_Ok_inv (members : list (string * encoderFn)) :
  (forall key, steady (memberOf members key)) ->
  forall keys e e',
    strMembers members keys e = Ok e' ->
    forall key, In key keys ->
      exists e1 e2,
        Options e1 = Options e
        /\ memberOf members key false " " false e1 = Ok e2.
Proof.
  intros Hm keys. induction keys as [|k keys IH]; intros e e'; simpl;
    [now intros _ key []|].
  fold (memberOf members k).
  destruct (memberOf members k false " " false _) as [e2| |] eqn:E;
    simpl; try discriminate.
  intros H key [<-|Hin].
  - eexists _, e2. split; [|exact E]. simpl. apply writeIndent_Options.
  - destruct (IH _ _ H key Hin) as (e1 & e3 & HO & HE).
    exists e1, e3. split; [|exact HE].
    apply Hm in E as [EO _]. rewrite HO, EO. simpl. apply writeIndent_Options.
Qed.

Lemma distinctb_NoDup (keys : list string) :
  distinctb keys = true -> NoDup keys.
Proof.
  induction keys as [|k keys IH]; simpl; [constructor|].
  intros H. apply andb_prop in H as [H1 H2].
  constructor; [|now apply IH].
  intros Hin. apply negb_true_iff in H1.
  assert (X : existsb (String.eqb k) keys = true).
  { apply existsb_exists. exists k. split; [exact Hin | apply String.eqb_refl]. }
  congruence.
Qed.

Lemma MapIndex_NoDup {A : Type} (m : list (string * A)) (k : string) (v : A) :
  NoDup (MapKeys m) -> In (k, v) m -> MapIndex m k = Some v.
Proof.
  induction m as [|[k0 v0] m IH]; simpl; [now intros _ []|].
  intros N [[= -> ->]|Hin].
  - now rewrite String.eqb_refl.
  - inversion N as [|? ? Hnot N']; subst.
    destruct (String.eqb_spec k0 k) as [->|Hne]; [|now apply IH].
    exfalso. apply Hnot. unfold MapKeys. apply in_map_iff.
    now exists (k, v).
Qed.

Lemma sortAlpha_In_rev (keys : list string) (key : string) :
  In key keys -> In key (sortAlpha keys).
Proof. apply Permutation_in, Permutation_sym, sortAlpha_Permutation. Qed.

Lemma str_Ok_inv swn ff (value : Value) :
  (forall noIndent separator root (e e' : hjsonEncoder),
      UnknownAsNull e = false ->
      wellKeyed value = true ->
      str swn ff value noIndent separator root e = Ok e' ->
      encodable value = true)
  /\ (forall noIndent separator root (e e' : hjsonEncoder),
         UnknownAsNull e = false ->
         wellKeyedKind wellKeyed value = true ->
         strKind swn ff (str swn ff) value noIndent separator root e = Ok e' ->
         encodableKind encodable value = true).
Proof.
  assert (D : forall (v : Value) noIndent separator root (e e' : hjsonEncoder),
             UnknownAsNull e = false ->
             strDefault v noIndent separator root e <> Ok e').
  { intros v noIndent separator root e e' U. unfold strDefault. rewrite U.
    now destruct (Value_Type v). }
  induction value
    as [ | | |elem [_ IH]|elem [_ IH]|s|i|u|number|b|elems IH|entries IH| ]
    using Value_ind.
  1, 13:
    split; intros noIndent separator root e e' U _ H;
    now apply (D _ noIndent separator root) in H.
  1, 2:
    split; [reflexivity|];
    intros noIndent separator root e e' U _ H;
    now apply (D _ noIndent separator root) in H.
  1, 2:
    split; [exact IH|];
    intros noIndent separator root e e' U _ H;
    now apply (D _ noIndent separator root) in H.
  1, 2, 4, 5: split; reflexivity.
  - split; intros noIndent separator root e e' U _ H; discriminate H.
  - assert (G : forall noIndent separator root (e e' : hjsonEncoder),
               UnknownAsNull e = false ->
               forallb wellKeyed elems = true ->
               strKind swn ff (str swn ff) (VSlice elems)
                 noIndent separator root e = Ok e' ->
               forallb encodable elems = true).
    { intros noIndent separator root e e' U W H.
      apply forallb_forall. intros v Hv.
      unfold strKind in H.
      destruct (List.length elems =? 0)%nat eqn:L.
      { destruct elems; [contradiction | discriminate]. }
      cbv zeta in H.
      match type of H with
      | context [strElems _ ?st] =>
        destruct (strElems (map (str swn ff) elems) st) as [e2| |] eqn:E;
          simpl in H; try discriminate;
        assert (SO : Options st = Options e)
          by (destruct (negb noIndent && negb _); simpl;
              now rewrite ?writeIndent_Options)
      end.
      assert (St : Forall (fun v => steady (str swn ff v)) elems).
      { apply Forall_forall. intros x _. apply str_regular. }
      destruct (strElems_Ok_inv _ _ St _ _ E v Hv) as (e1 & e3 & HO & HE).
      rewrite Forall_forall in IH. rewrite forallb_forall in W.
      apply (proj1 (IH v Hv) _ _ _ _ _) with (3 := HE); [|now apply W].
      now rewrite HO, SO. }
    split; exact G.
  - assert (G : forall noIndent separator root (e e' : hjsonEncoder),
               UnknownAsNull e = false ->
               distinctb (MapKeys entries)
               && forallb (fun kv => wellKeyed (snd kv)) entries = true ->
               strKind swn ff (str swn ff) (VMap entries)
                 noIndent separator root e = Ok e' ->
               forallb (fun kv => encodable (snd kv)) entries = true).
    { intros noIndent separator root e e' U W H.
      apply andb_prop in W as [W1 W2]. apply distinctb_NoDup in W1.
      apply forallb_forall. intros [k v] Hv.
      unfold strKind in H.
      destruct (List.length entries =? 0)%nat eqn:L.
      { destruct entries; [contradiction | discriminate]. }
      cbv zeta in H.
      match type of H with
      | context [strMembers ?m ?ks ?st] =>
        destruct (strMembers m ks st) as [e2| |] eqn:E;
          simpl in H; try discriminate;
        assert (SO : Options st = Options e)
          by (destruct (negb root || _); [|reflexivity];
              destruct (negb noIndent && negb _); simpl;
              now rewrite ?writeIndent_Options)
      end.
      assert (Hk : In k (sortAlpha (MapKeys entries))).
      { apply sortAlpha_In_rev. unfold MapKeys. apply in_map_iff.
        now exists (k, v). }
      destruct (strMembers_Ok_inv _
                  (fun key => proj2 (members_regular swn ff entries key))
                  _ _ _ E k Hk) as (e1 & e3 & HO & HE).
      unfold memberOf in HE.
      rewrite MapIndex_map, (MapIndex_NoDup _ _ _ W1 Hv) in HE. simpl in HE.
      rewrite Forall_forall in IH. rewrite forallb_forall in W2.
      apply (proj1 (IH _ Hv) _ _ _ _ _) with (3 := HE);
        [|exact (W2 _ Hv)].
      now rewrite HO, SO. }
    split; exact G.
Qed.

(** X6. With UnknownAsNull false (as it always is under [Marshal] and
    [MarshalWithOptions]) and maps whose keys are distinct, [str]
    returns normally only for a value made of nil interfaces and
    pointers, strings, signed integers, floats, booleans, and slices and
    maps of such values: every other value ends in the error or in a
    panic. *)
Theorem str_returns_only_on_encodable
    swn ff (value : Value) noIndent separator root (e e' : hjsonEncoder) :
  UnknownAsNull e = false ->
  wellKeyed value = true ->
  str swn ff value noIndent separator root e = Ok e' ->
  encodable value = true.
Proof. apply (str_Ok_inv swn ff value). Qed.

Lemma str_returns_only_on_encodable_witness :
  encodable (VMap [("b", VSlice [VBool true; VNilPtr]); ("a", VInt 3)]) = true.
Proof.
  apply (str_returns_only_on_encodable startsWithNumberSpec noFiniteFloats
           (VMap [("b", VSlice [VBool true; VNilPtr]); ("a", VInt 3)])
           true EmptyString true (newEncoder DefaultOptions)
           {| Buffer := "{" ++ str1 chr_n ++ "  a: 3" ++ str1 chr_n
                          ++ "  b:" ++ str1 chr_n ++ "  [" ++ str1 chr_n
                          ++ "    true" ++ str1 chr_n ++ "    null" ++ str1 chr_n
                          ++ "  ]" ++ str1 chr_n ++ "}";
              Options := DefaultOptions; indent := 0 |});
    reflexivity.
Defined.

(** ** Runes and bytes *)

Lemma substring_dropS (n : nat) (s : string) : substring 0 n s ++ dropS n s = s.
Proof.
  revert s; induction n as [|n IH]; intros [|c s]; simpl; try reflexivity.
  now rewrite IH.
Qed.

Lemma substring_zero (s : string) : substring 0 0 s = EmptyString.
Proof. now destruct s. Qed.

(** The first rune of a non-empty text: an ASCII byte is its own rune,
    of width 1; otherwise the rune is decoded from one to four bytes that
    are all 0x80 or above. *)
Lemma DecodeRune_shape (c0 : ascii) (rest : string) :
  (isASCII c0 = true
   /\ utf8.DecodeRune (String c0 rest) = (utf8.byteN c0, 1%nat))
  \/ (isASCII c0 = false
      /\ exists w,
           snd (utf8.DecodeRune (String c0 rest)) = S w
           /\ forallbS isHigh (substring 0 (S w) (String c0 rest)) = true).
Proof.
  unfold isASCII, utf8.DecodeRune. cbv zeta.
  destruct (utf8.byteN c0 <? utf8.RuneSelf)%N eqn:A; [now left|].
  right. split; [reflexivity|].
  assert (H0 : isHigh c0 = true).
  { unfold isHigh. apply N.leb_le. now apply N.ltb_ge in A. }
  assert (E1 : exists w : nat,
             snd (utf8.RuneError, 1%nat) = S w
             /\ forallbS isHigh (substring 0 (S w) (String c0 rest)) = true).
  { exists 0%nat. split; [reflexivity|].
    cbn [substring forallbS]. now rewrite H0, substring_zero. }
  destruct ((utf8.byteN c0 <? 194) || (244 <? utf8.byteN c0))%N; [exact E1|].
  destruct rest as [|c1 p2]; [exact E1|].
  match goal with
  | |- context [if ?c then (utf8.RuneError, 1%nat) else _] =>
    destruct c eqn:B1; [exact E1|]
  end.
  assert (H1 : isHigh c1 = true).
  { unfold isHigh, utf8.RuneSelf. apply N.leb_le.
    apply orb_false_iff in B1 as [B1 _]. apply N.ltb_ge in B1.
    destruct (utf8.byteN c0 =? 224)%N; [lia|].
    destruct (utf8.byteN c0 =? 240)%N; lia. }
  destruct (utf8.byteN c0 <? 224)%N.
  { exists 1%nat. split; [reflexivity|].
    cbn [substring forallbS]. now rewrite H0, H1, substring_zero. }
  destruct p2 as [|c2 p3]; [exact E1|].
  destruct (utf8.isCont (utf8.byteN c2)) eqn:B2; [|exact E1].
  assert (H2 : isHigh c2 = true).
  { unfold isHigh, utf8.RuneSelf. unfold utf8.isCont in B2.
    now apply andb_prop in B2 as [B2 _]. }
  cbn [negb].
  destruct (utf8.byteN c0 <? 240)%N.
  { exists 2%nat. split; [reflexivity|].
    cbn [substring forallbS]. now rewrite H0, H1, H2, substring_zero. }
  destruct p3 as [|c3 p4]; [exact E1|].
  destruct (utf8.isCont (utf8.byteN c3)) eqn:B3; [|exact E1].
  assert (H3 : isHigh c3 = true).
  { unfold isHigh, utf8.RuneSelf. unfold utf8.isCont in B3.
    now apply andb_prop in B3 as [B3 _]. }
  exists 3%nat. split; [reflexivity|].
  cbn [substring forallbS]. now rewrite H0, H1, H2, H3, substring_zero.
Qed.

(** The runes' byte slices, one after the other, are the text. *)
Lemma runesFrom_partition (s : string) :
  forall skip, concatS (map snd (utf8.runesFrom skip s)) = dropS skip s.
Proof.
  induction s as [|c0 rest IH]; intros [|k]; try reflexivity.
  - cbn [utf8.runesFrom dropS].
    destruct (DecodeRune_shape c0 rest) as [[_ E]|[_ (w & E & _)]].
    + rewrite E. cbn [map snd concatS substring Nat.sub].
      rewrite IH, substring_zero. reflexivity.
    + destruct (utf8.DecodeRune (String c0 rest)) as [r n]. cbn [snd] in E.
      subst n. cbn [map snd concatS Nat.sub].
      rewrite IH. replace (w - 0)%nat with w by lia.
      exact (substring_dropS (S w) (String c0 rest)).
  - cbn [utf8.runesFrom dropS]. apply IH.
Qed.

Lemma runes_partition (s : string) : concatS (map snd (utf8.runes s)) = s.
Proof. apply (runesFrom_partition s 0). Qed.

Lemma runesFrom_shape (s : string) :
  forall skip, Forall tokenShape (utf8.runesFrom skip s).
Proof.
  induction s as [|c0 rest IH]; intros [|k]; try constructor.
  - cbn [utf8.runesFrom].
    destruct (DecodeRune_shape c0 rest) as [[A E]|[_ (w & E & H)]].
    + rewrite E. constructor; [|apply IH].
      left. exists c0. split; [|exact A].
      cbn [substring]. now rewrite substring_zero.
    + destruct (utf8.DecodeRune (String c0 rest)) as [r n]. cbn [snd] in E.
      subst n. constructor; [|apply IH]. right. exact H.
  - cbn [utf8.runesFrom]. apply IH.
Qed.

Lemma runes_shape (s : string) : Forall tokenShape (utf8.runes s).
Proof. apply (runesFrom_shape s 0). Qed.

(** An ASCII byte of the text is one of its runes. *)
Lemma runesFrom_ascii (p : N -> bool) (s : string) :
  forall skip,
    forallbS isHigh (substring 0 skip s) = true ->
    existsbS (fun c => isASCII c && p (utf8.byteN c)) s = true ->
    existsb (fun '(r, _) => p r) (utf8.runesFrom skip s) = true.
Proof.
  induction s as [|c0 rest IH]; intros skip Hs H; [discriminate|].
  assert (HA : isHigh c0 = true -> isASCII c0 = false).
  { unfold isHigh, isASCII. intros X. apply N.leb_le in X. apply N.ltb_ge. lia. }
  destruct skip as [|k].
  - cbn [utf8.runesFrom].
    destruct (DecodeRune_shape c0 rest) as [[A E]|[A (w & E & Hw)]].
    + rewrite E. cbn [existsb existsbS] in *. rewrite A in H. cbn [andb] in H.
      destruct (p (utf8.byteN c0)); [reflexivity|]. cbn [orb] in *.
      apply IH; [now rewrite substring_zero | exact H].
    + destruct (utf8.DecodeRune (String c0 rest)) as [r n]. cbn [snd] in E.
      subst n. cbn [existsb existsbS] in *. rewrite A in H. cbn [andb orb] in H.
      rewrite (IH (S w - 1)%nat); [apply orb_true_r| |exact H].
      cbn [substring forallbS] in Hw. apply andb_prop in Hw as [_ Hw].
      now replace (S w - 1)%nat with w by lia.
  - cbn [utf8.runesFrom]. cbn [substring forallbS] in Hs.
    apply andb_prop in Hs as [H0 Hs]. cbn [existsbS] in H.
    rewrite (HA H0) in H. cbn [andb orb] in H.
    now apply IH.
Qed.

Lemma MatchClass_ascii (cl : regexp.class) (s : string) :
  existsbS (fun c => isASCII c && regexp.inClass cl (utf8.byteN c)) s = true ->
  regexp.MatchClass cl s = true.
Proof.
  intros H. unfold regexp.MatchClass, utf8.runes.
  apply (runesFrom_ascii (regexp.inClass cl)); [now rewrite substring_zero | exact H].
Qed.

Lemma existsbS_impl (p q : ascii -> bool) (s : string) :
  (forall c, p c = true -> q c = true) ->
  existsbS p s = true -> existsbS q s = true.
Proof.
  intros H. induction s as [|c s IH]; simpl; [discriminate|].
  intros X. apply orb_prop in X as [X|X].
  - now rewrite (H c X).
  - rewrite (IH X). apply orb_true_r.
Qed.

Lemma control_in_classes (c : ascii) :
  isControl c = true ->
  isASCII c && regexp.inClass needsQuotesClass (utf8.byteN c) = true
  /\ isASCII c && regexp.inClass needsEscapeClass (utf8.byteN c) = true.
Proof.
  unfold isControl, isASCII, utf8.RuneSelf. intros H.
  apply orb_prop in H as [H|H].
  - apply N.ltb_lt in H.
    assert (A : (utf8.byteN c <? 128)%N = true) by (apply N.ltb_lt; lia).
    assert (B : (utf8.byteN c <=? 31)%N = true) by (apply N.leb_le; lia).
    rewrite A. cbn [regexp.inClass needsQuotesClass needsEscapeClass existsb andb].
    rewrite B.
    assert (Z0 : (0 <=? utf8.byteN c)%N = true) by (apply N.leb_le; lia).
    rewrite Z0. cbn [andb orb]. split; [reflexivity|].
    now rewrite !orb_true_r.
  - apply N.eqb_eq in H. rewrite H. split; reflexivity.
Qed.

Lemma control_needsQuotes (s : string) :
  existsbS isControl s = true -> needsQuotes s = true /\ needsEscape s = true.
Proof.
  intros H. split; apply MatchClass_ascii;
    (eapply existsbS_impl; [|exact H]); intros c Hc;
    now apply control_in_classes in Hc.
Qed.

(** ** The escaper on whole texts *)

Lemma ReplaceAllFunc_no_match (cl : regexp.class) (src : string)
    (repl : string -> string) :
  regexp.MatchClass cl src = false ->
  regexp.ReplaceAllFunc cl src repl = src.
Proof.
  unfold regexp.MatchClass, regexp.ReplaceAllFunc. intros H.
  transitivity (concatS (map snd (utf8.runes src))); [|apply runes_partition].
  f_equal. apply map_ext_in. intros [r a] Hin.
  destruct (regexp.inClass cl r) eqn:E; [|reflexivity].
  exfalso. rewrite <- not_true_iff_false in H. apply H.
  apply existsb_exists. exists (r, a). now split.
Qed.

(** X7. A text with no escape-worthy character passes through
    [quoteReplace] unchanged, byte for byte, whether or not it is valid
    UTF-8 above the ASCII range. *)
Theorem quoteReplace_keeps_clean_text (text : string) :
  needsEscape text = false -> quoteReplace text = text.
Proof. intros H. unfold quoteReplace. now apply ReplaceAllFunc_no_match. Qed.

Lemma quoteReplace_keeps_clean_text_witness :
  quoteReplace ("caf" ++ String "195"%char (str1 "169"%char) ++ " au lait")
  = "caf" ++ String "195"%char (str1 "169"%char) ++ " au lait".
Proof. apply quoteReplace_keeps_clean_text. reflexivity. Defined.

Lemma scan_app (a b : string) :
  forall st,
    scan st (a ++ b)
    = match scan st a with
      | Some st' => scan st' b
      | None => None
      end.
Proof.
  induction a as [|c a IH]; intros st; simpl; [reflexivity|].
  destruct (scanByte st c); [apply IH | reflexivity].
Qed.

Lemma scan_high (s : string) :
  forallbS isHigh s = true -> scan Plain s = Some Plain.
Proof.
  induction s as [|c s IH]; simpl; [reflexivity|].
  intros H. apply andb_prop in H as [Hc Hs].
  unfold isHigh, utf8.RuneSelf in Hc. apply N.leb_le in Hc.
  assert (A : (utf8.byteN c =? 92)%N = false) by (apply N.eqb_neq; lia).
  assert (B : (utf8.byteN c =? 34)%N = false) by (apply N.eqb_neq; lia).
  assert (C : (utf8.byteN c <? 32)%N = false) by (apply N.ltb_ge; lia).
  rewrite A, B, C. now apply IH.
Qed.

Lemma scan_clean_ascii (c : ascii) :
  regexp.inClass needsEscapeClass (utf8.byteN c) = false ->
  scan Plain (str1 c) = Some Plain.
Proof.
  unfold regexp.inClass, needsEscapeClass. cbn [existsb]. intros H.
  apply orb_false_iff in H as [A H].
  apply orb_false_iff in H as [B H].
  apply orb_false_iff in H as [C _].
  simpl.
  destruct (utf8.byteN c =? 92)%N eqn:A'.
  { apply N.eqb_eq in A'. rewrite A' in A. discriminate. }
  destruct (utf8.byteN c =? 34)%N eqn:B'.
  { apply N.eqb_eq in B'. rewrite B' in B. discriminate. }
  destruct (utf8.byteN c <? 32)%N eqn:C'; [|reflexivity].
  apply N.ltb_lt in C'. apply andb_false_iff in C as [C|C].
  - apply N.leb_gt in C. lia.
  - apply N.leb_gt in C. lia.
Qed.

Lemma scan_replacement (c : ascii) :
  scan Plain
    (let t := meta c in
     match t with
     | Some t => t
     | None => fmt.Sprintf_u04x t
     end)
  = Some Plain.
Proof.
  cbv zeta. unfold meta.
  repeat match goal with
         | |- context [Ascii.eqb ?a ?b] => destruct (Ascii.eqb a b)
         end; reflexivity.
Qed.

(** Read from outside an escape, the result of [quoteReplace] ends
    outside an escape. *)
Lemma quoteReplace_scan (text : string) :
  scan Plain (quoteReplace text) = Some Plain.
Proof.
  unfold quoteReplace, regexp.ReplaceAllFunc.
  assert (G : forall l,
             Forall tokenShape l ->
             scan Plain
               (concatS
                  (map (fun '(r, a) =>
                          if regexp.inClass needsEscapeClass r
                          then (let c := meta (firstByte a) in
                                match c with
                                | Some t => t
                                | None => fmt.Sprintf_u04x c
                                end)
                          else a) l))
             = Some Plain).
  { induction 1 as [|[r a] l Hra Hl IH]; [reflexivity|].
    cbn [map concatS]. rewrite scan_app.
    destruct (regexp.inClass needsEscapeClass r) eqn:E.
    - pose proof (scan_replacement (firstByte a)) as R. cbv zeta in R.
      rewrite R. exact IH.
    - destruct Hra as [(c & [= -> ->] & _)|Hh].
      + now rewrite (scan_clean_ascii c E).
      + cbn [snd] in Hh. now rewrite (scan_high a Hh). }
  pose proof (G _ (runes_shape text)) as R.
  cbv beta zeta in R |- *. exact R.
Qed.

(** X8. Whatever the text, the result of [quoteReplace] is the body of a
    JSON string: it has no bare double quote and no byte below the
    space, and each of its backslashes starts one of the escapes of JSON
    (a backslash and one of the double quote, backslash, b, f, n, r, t,
    or a backslash, u and four hex digits). *)
Theorem quoteReplace_well_escaped (text : string) :
  wellEscaped (quoteReplace text) = true.
Proof. unfold wellEscaped. now rewrite quoteReplace_scan. Qed.

Lemma clean_well_escaped (text : string) :
  needsEscape text = false -> wellEscaped text = true.
Proof.
  intros H. pose proof (quoteReplace_scan text) as S.
  unfold quoteReplace in S. rewrite (ReplaceAllFunc_no_match _ _ _ H) in S.
  unfold wellEscaped. now rewrite S.
Qed.

(** X9. What [quoteName] returns for a key is the key itself, and then
    the key is not empty and has none of the characters and sequences of
    needsEscapeName, or it is a JSON string: a double quote, a body that
    is well escaped, and a double quote. *)
Theorem quoteName_bare_or_json_string (name : string) :
  (quoteName name = name
   /\ name <> EmptyString /\ needsEscapeName name = false)
  \/ (exists body,
        quoteName name = str1 DQ ++ body ++ str1 DQ
        /\ wellEscaped body = true).
Proof.
  unfold quoteName. destruct name as [|c t].
  - right. exists EmptyString. now split.
  - cbn [len String.length Nat.eqb].
    destruct (needsEscapeName (String c t)) eqn:N.
    + right. destruct (needsEscape (String c t)) eqn:E.
      * eexists. split; [reflexivity | unfold wellEscaped; now rewrite quoteReplace_scan].
      * eexists. split; [reflexivity | now apply clean_well_escaped].
    + left. repeat split. discriminate.
Qed.

(** X10. A string with an ASCII control byte (below the space, or DEL:
    a newline or a tab for instance) is never written bare nor between
    quotes as it is: it becomes a multiline block when needsEscapeML
    does not match and it is not the root, and a quoted string with
    escapes otherwise. *)
Theorem control_string_multiline_or_escaped
    swn (e : hjsonEncoder) (value separator : string) (root : bool) :
  existsbS isControl value = true ->
  quote swn e value separator root
  = if negb (needsEscapeML value) && negb root then mlString e value separator
    else WriteString e (separator ++ str1 DQ ++ quoteReplace value ++ str1 DQ).
Proof.
  intros H. destruct (control_needsQuotes value H) as [Q E].
  unfold quote. destruct value as [|c t]; [discriminate|].
  cbn [len String.length Nat.eqb].
  rewrite Q, E. rewrite orb_true_r. reflexivity.
Qed.

Lemma control_string_multiline_or_escaped_witness :
  quote startsWithNumberSpec (newEncoder DefaultOptions)
    ("a" ++ str1 chr_n ++ "b") " " false
  = mlString (newEncoder DefaultOptions) ("a" ++ str1 chr_n ++ "b") " ".
Proof.
  apply (control_string_multiline_or_escaped startsWithNumberSpec
           (newEncoder DefaultOptions) ("a" ++ str1 chr_n ++ "b") " " false).
  reflexivity.
Defined.

(** X11. With QuoteAlways set, the root string is always written as a
    JSON string: the separator, a double quote, a well-escaped body and
    a double quote, whatever the string. *)
Theorem quote_always_root_json_string
    swn (e : hjsonEncoder) (value separator : string) :
  QuoteAlways e = true ->
  exists body,
    quote swn e value separator true
    = WriteString e (separator ++ str1 DQ ++ body ++ str1 DQ)
    /\ wellEscaped body = true.
Proof.
  intros Q. unfold quote. destruct value as [|c t].
  - exists EmptyString. now split.
  - cbn [len String.length Nat.eqb]. rewrite Q. cbn [orb].
    rewrite andb_false_r.
    destruct (needsEscape (String c t)) eqn:E; cbn [negb].
    + eexists. split; [reflexivity | unfold wellEscaped; now rewrite quoteReplace_scan].
    + eexists. split; [reflexivity | now apply clean_well_escaped].
Qed.

Lemma quote_always_root_json_string_witness :
  exists body,
    quote startsWithNumberSpec
      {| Buffer := EmptyString;
         Options := {| Eol := str1 chr_n; BracesSameLine := false;
                       EmitRootBraces := true; QuoteAlways := true;
                       IndentBy := "  "; AllowMinusZero := false;
                       UnknownAsNull := false |};
         indent := 0 |}
      ("say " ++ str1 DQ ++ "hi" ++ str1 DQ) EmptyString true
    = WriteString
        {| Buffer := EmptyString;
           Options := {| Eol := str1 chr_n; BracesSameLine := false;
                         EmitRootBraces := true; QuoteAlways := true;
                         IndentBy := "  "; AllowMinusZero := false;
                         UnknownAsNull := false |};
           indent := 0 |}
        (EmptyString ++ str1 DQ ++ body ++ str1 DQ)
    /\ wellEscaped body = true.
Proof.
  apply quote_always_root_json_string. reflexivity.
Defined.

(** ** The multiline block and the indentation *)

Lemma RemoveByte_idempotent (old : ascii) (s : string) :
  strings.RemoveByte old (strings.RemoveByte old s) = strings.RemoveByte old s.
Proof.
  induction s as [|c s IH]; simpl; [reflexivity|].
  destruct (Ascii.eqb c old) eqn:E; [exact IH|].
  simpl. now rewrite E, IH.
Qed.

(** X12. The multiline form drops every carriage return of the value: a
    value and the same value without its carriage returns give the same
    block, so the carriage returns cannot be read back from the text. *)
Theorem mlString_drops_carriage_returns
    (e : hjsonEncoder) (value separator : string) :
  mlString e (strings.RemoveByte chr_r value) separator
  = mlString e value separator.
Proof. unfold mlString. now rewrite RemoveByte_idempotent. Qed.

Lemma Split_no_sep (sep : ascii) (s : string) :
  existsbS (fun c => Ascii.eqb c sep) s = false -> strings.Split sep s = [s].
Proof.
  induction s as [|c s IH]; simpl; [reflexivity|].
  intros H. apply orb_false_iff in H as [Hc Hs].
  now rewrite Hc, (IH Hs).
Qed.

Lemma RemoveByte_existsbS (p : ascii -> bool) (old : ascii) (s : string) :
  p old = false ->
  existsbS p (strings.RemoveByte old s) = existsbS p s.
Proof.
  intros Hp. induction s as [|c s IH]; simpl; [reflexivity|].
  destruct (Ascii.eqb_spec c old) as [->|Hne].
  - now rewrite Hp, IH.
  - simpl. now rewrite IH.
Qed.

(** X13. For a value without a newline, the multiline form stays on the
    line: the separator, three single quotes, the value without its
    carriage returns, and three single quotes; no indentation is
    written. *)
Theorem mlString_single_line (e : hjsonEncoder) (value separator : string) :
  noNewline value = true ->
  mlString e value separator
  = WriteString e
      (separator ++ "'''" ++ strings.RemoveByte chr_r value ++ "'''").
Proof.
  unfold noNewline. intros H. apply negb_true_iff in H.
  unfold mlString.
  rewrite Split_no_sep
    by (now rewrite RemoveByte_existsbS).
  cbv zeta. unfold WriteString. simpl. f_equal.
  now rewrite !append_assoc.
Qed.

Lemma mlString_single_line_witness :
  mlString (newEncoder DefaultOptions) ("a\b" ++ str1 chr_r) " "
  = WriteString (newEncoder DefaultOptions)
      (" " ++ "'''" ++ strings.RemoveByte chr_r ("a\b" ++ str1 chr_r) ++ "'''").
Proof. apply mlString_single_line. reflexivity. Defined.

(** The line loop of [mlString] as text. *)
Lemma mlLines_Buffer (a : list string) :
  forall e,
    Buffer (mlLines a e)
    = Buffer e
        ++ concatS
             (map (fun v =>
                     indentText e
                       (if (len v =? 0)%nat then 0%Z else wrapInt (indent e + 1))
                       ++ v) a).
Proof.
  unfold mlLines.
  induction a as [|v a IH]; intros e; simpl; [now rewrite append_empty_r|].
  rewrite IH. simpl. rewrite writeIndent_Buffer, writeIndent_indent.
  rewrite !append_assoc. do 4 f_equal.
  apply map_ext. intros x. unfold indentText.
  now rewrite writeIndent_Options.
Qed.

Lemma Split_two (sep : ascii) (s : string) :
  existsbS (fun c => Ascii.eqb c sep) s = true ->
  exists x y l, strings.Split sep s = x :: y :: l.
Proof.
  induction s as [|c s IH]; simpl; [discriminate|].
  destruct (Ascii.eqb c sep) eqn:E; simpl.
  - intros _. destruct s as [|c' s']; simpl; [now eexists _, _, _|].
    destruct (Ascii.eqb c' sep); [now eexists _, _, _|].
    destruct (strings.Split sep s'); now eexists _, _, _.
  - intros H. destruct (IH H) as (x & y & l & ->). now eexists _, _, _.
Qed.

(** X14. For a value with a newline, the multiline form is a block: a
    new line at one level below the current depth and three single
    quotes; then every line of the value (carriage returns dropped) on a
    new line at that level, an empty line getting the line ending only;
    then again a new line at that level and three single quotes.  The
    separator is not written. *)
Theorem mlString_block (e : hjsonEncoder) (value separator : string) :
  noNewline value = false ->
  Buffer (mlString e value separator)
  = Buffer e
      ++ indentText e (wrapInt (indent e + 1)) ++ "'''"
      ++ concatS
           (map (fun line =>
                   indentText e
                     (if (len line =? 0)%nat then 0%Z
                      else wrapInt (indent e + 1))
                     ++ line)
              (strings.Split chr_n (strings.RemoveByte chr_r value)))
      ++ indentText e (wrapInt (indent e + 1)) ++ "'''".
Proof.
  unfold noNewline. intros H. apply negb_false_iff in H.
  rewrite <- (RemoveByte_existsbS _ chr_r value eq_refl) in H.
  destruct (Split_two chr_n _ H) as (x & y & l & E).
  unfold mlString. rewrite E. cbv zeta.
  set (d := wrapInt (indent e + 1)).
  set (e1 := WriteString (writeIndent e d) "'''").
  assert (O1 : Options e1 = Options e) by apply writeIndent_Options.
  assert (I1 : indent e1 = indent e) by apply writeIndent_indent.
  cbn [Buffer WriteString].
  rewrite writeIndent_Buffer, mlLines_Buffer.
  rewrite mlLines_Options, mlLines_indent, O1, I1.
  unfold e1. cbn [Buffer WriteString]. rewrite writeIndent_Buffer.
  fold d. now rewrite !append_assoc.
Qed.

Lemma mlString_block_witness :
  Buffer (mlString (newEncoder DefaultOptions)
            ("a" ++ str1 chr_n ++ str1 chr_n ++ "b") " ")
  = Buffer (newEncoder DefaultOptions)
      ++ indentText (newEncoder DefaultOptions)
           (wrapInt (indent (newEncoder DefaultOptions) + 1)) ++ "'''"
      ++ concatS
           (map (fun line =>
                   indentText (newEncoder DefaultOptions)
                     (if (len line =? 0)%nat then 0%Z
                      else wrapInt (indent (newEncoder DefaultOptions) + 1))
                     ++ line)
              (strings.Split chr_n
                 (strings.RemoveByte chr_r
                    ("a" ++ str1 chr_n ++ str1 chr_n ++ "b"))))
      ++ indentText (newEncoder DefaultOptions)
           (wrapInt (indent (newEncoder DefaultOptions) + 1)) ++ "'''".
Proof. apply mlString_block. reflexivity. Defined.

Lemma repeatWrite_last (n : nat) (s : string) :
  forall e, repeatWrite (S n) s e = WriteString (repeatWrite n s e) s.
Proof.
  induction n as [|n IH]; intros e; [reflexivity|].
  change (repeatWrite (S (S n)) s e) with (repeatWrite (S n) s (WriteString e s)).
  now rewrite IH.
Qed.

(** X15. One level more of depth is one indentation unit more: from
    depth zero on, [writeIndent] at depth i + 1 writes what it writes at
    depth i and then IndentBy once. *)
Theorem writeIndent_one_level_deeper (e : hjsonEncoder) (i : Z) :
  (0 <= i)%Z ->
  writeIndent e (i + 1) = WriteString (writeIndent e i) (IndentBy e).
Proof.
  intros H. unfold writeIndent.
  replace (Z.to_nat (i + 1)) with (S (Z.to_nat i)) by lia.
  apply repeatWrite_last.
Qed.

Lemma writeIndent_one_level_deeper_witness :
  writeIndent (newEncoder DefaultOptions) (2 + 1)
  = WriteString (writeIndent (newEncoder DefaultOptions) 2)
      (IndentBy (newEncoder DefaultOptions)).
Proof. apply writeIndent_one_level_deeper. lia. Defined.

(** ** The order of [SortAlpha] *)

(** X16. [Less] is a strict total order on the key texts, as sort.Sort
    requires of it: no key is before itself, the order is transitive,
    and of two different keys one is before the other. *)
Theorem Less_strict_total_order :
  (forall a, Less a a = false)
  /\ (forall a b c, Less a b = true -> Less b c = true -> Less a c = true)
  /\ (forall a b, Less a b = false -> Less b a = false -> a = b).
Proof.
  split; [exact Less_irrefl|]. split; [exact Less_trans|].
  intros a b Hab Hba. now apply leAlpha_antisym.
Qed.

(** ** Floats *)

Lemma ToLower_length (s : string) : len (strings.ToLower s) = len s.
Proof. induction s as [|c s IH]; simpl; [reflexivity | now f_equal]. Qed.

(** X17. A finite float other than zero is written in the shorter of its
    two formats, f and E with the exponent letter in lower case; when
    both have the same length it is the f format. *)
Theorem float_shortest_form swn ff (number : spec_float)
    noIndent separator root (e : hjsonEncoder) :
  IsInf number = false ->
  IsNaN number = false ->
  eqZero number = false ->
  exists val,
    str swn ff (VFloat number) noIndent separator root e
    = Ok (WriteString (WriteString e separator) val)
    /\ len val
       = Nat.min (len (FormatFloat ff number "f"%char))
           (len (FormatFloat ff number "E"%char))
    /\ (val = FormatFloat ff number "f"%char
        \/ val = strings.ToLower (FormatFloat ff number "E"%char)
           /\ (len val < len (FormatFloat ff number "f"%char))%nat).
Proof.
  intros HI HN HZ. simpl. unfold strKind.
  rewrite HI, HN, HZ, andb_false_r. cbn [orb]. cbv zeta.
  destruct (len (FormatFloat ff number "E"%char)
            <? len (FormatFloat ff number "f"%char))%nat eqn:L.
  - apply Nat.ltb_lt in L.
    eexists. split; [reflexivity|]. rewrite ToLower_length.
    split; [lia|]. right. split; [reflexivity | exact L].
  - apply Nat.ltb_ge in L.
    eexists. split; [reflexivity|]. split; [lia|]. now left.
Qed.

Lemma float_shortest_form_witness :
  exists val,
    str startsWithNumberSpec
      (fun _ _ _ fmt => if Ascii.eqb fmt "f"%char then "1000000" else "1E+06")
      (VFloat (S754_finite false 15625 6)) false " " false
      (newEncoder DefaultOptions)
    = Ok (WriteString (WriteString (newEncoder DefaultOptions) " ") val)
    /\ len val
       = Nat.min
           (len (FormatFloat
                   (fun _ _ _ fmt =>
                      if Ascii.eqb fmt "f"%char then "1000000" else "1E+06")
                   (S754_finite false 15625 6) "f"%char))
           (len (FormatFloat
                   (fun _ _ _ fmt =>
                      if Ascii.eqb fmt "f"%char then "1000000" else "1E+06")
                   (S754_finite false 15625 6) "E"%char))
    /\ (val = FormatFloat
                (fun _ _ _ fmt =>
                   if Ascii.eqb fmt "f"%char then "1000000" else "1E+06")
                (S754_finite false 15625 6) "f"%char
        \/ val = strings.ToLower
                   (FormatFloat
                      (fun _ _ _ fmt =>
                         if Ascii.eqb fmt "f"%char then "1000000" else "1E+06")
                      (S754_finite false 15625 6) "E"%char)
           /\ (len val
               < len (FormatFloat
                        (fun _ _ _ fmt =>
                           if Ascii.eqb fmt "f"%char then "1000000" else "1E+06")
                        (S754_finite false 15625 6) "f"%char))%nat).
Proof. apply float_shortest_form; reflexivity. Defined.
